(** * near-api-js-ext: a shallow embedding of the visible sources

    The first half of the file holds the definitions, module by module:

    - [JS]          the JavaScript notions the sources rely on
    - [Errors]      lib/utils/errors.js  (TypedError, ErrorContext)
    - [Logging]     lib/utils/logging.js (printTxOutcomeLogsAndFailures,
                    printTxOutcomeLogs, SUPPRESS_LOGGING)
    - [KeyStore]    src/key_stores/browser_local_storage_key_store.ts
    - [Connection]  the Connection class (getProvider, getSigner,
                    fromConfig)
    - [NetworkClient], [NonceAllocator], [TransactionEncoder],
      [Submitter], [Pipeline]: the submission pipeline, whose code is not
      among the visible sources and is written down from the
      specification's component design
    - [Scenario]    the concrete runs the specification describes
    - [Warning], [KeyFormat]: logWarning of lib/utils/errors.js and the
      vocabulary for further properties of the key store
    - [KeyStoreRun] the key store over a sequence of calls, with the
      arrival of the stored data the constructor asks for
    - [RetryModel], [RetryScenario]: what is asked of the network for a
      transaction that has landed, and a run to try it on

    The second half holds the properties.

    JavaScript objects used as dictionaries are finite maps from strings,
    [undefined] and [null] are [None] where a member is optional, console
    output is an explicit list of calls, and a thrown exception is the
    left summand of a sum. *)

From Stdlib Require Import List String Bool Arith NArith Lia.
From stdpp Require Import base option list strings gmap.
Import ListNotations.
Local Open Scope string_scope.
Local Open Scope list_scope.

(* ===================================================================== *)
(** ** JavaScript values and truthiness, as far as the sources use them *)
(* ===================================================================== *)

Module JS.

(** ToBoolean on a string: only the empty string is falsy. *)
Definition truthy_string (s : string) : bool :=
  match s with
  | EmptyString => false
  | String _ _ => true
  end.

(** ToBoolean on a possibly-undefined string. *)
Definition truthy (v : option string) : bool :=
  match v with
  | None => false
  | Some s => truthy_string s
  end.

(** [a || b] where [a] is a possibly-undefined string and [b] a string. *)
Definition or_else (a : option string) (b : string) : string :=
  match a with
  | Some s => if truthy_string s then s else b
  | None => b
  end.

(** [Array.prototype.join] on an array of strings. *)
Definition join (sep : string) (xs : list string) : string :=
  String.concat sep xs.

(** The escape ['\t']. *)
Definition TAB : string := String (Ascii.ascii_of_nat 9) EmptyString.

(** What [console.log] and [console.warn] leave behind. *)
Inductive ConsoleCall : Type :=
| console_log (line : string)
| console_warn (line : string).

Definition is_warn (c : ConsoleCall) : bool :=
  match c with
  | console_warn _ => true
  | console_log _ => false
  end.

End JS.

(* ===================================================================== *)
(** ** lib/utils/errors.js *)
(* ===================================================================== *)

Module Errors.

(** [class ErrorContext { constructor(transactionHash) }] *)
Record ErrorContext : Type := mkErrorContext {
  transactionHash : option string
}.

(** [class TypedError extends Error]: the fields an instance carries.
    [message] is what [Error.prototype.message] reads back. *)
Record TypedError : Type := mkTypedError {
  message : string;
  type : string;
  context : option ErrorContext
}.

(** [super(message)]: an omitted message reads back as the empty string. *)
Definition Error_message (message : option string) : string :=
  match message with
  | Some m => m
  | None => ""
  end.

(** [constructor(message, type, context)]
    {[
      super(message);
      this.type = type || 'UntypedError';
      this.context = context;
    ]} *)
Definition TypedError_new
    (message type : option string) (context : option ErrorContext)
  : TypedError :=
  {| message := Error_message message;
     type := JS.or_else type "UntypedError";
     context := context |}.

End Errors.

(* ===================================================================== *)
(** ** lib/utils/logging.js *)
(* ===================================================================== *)

Module Logging.

(** [const SUPPRESS_LOGGING = true;] *)
Definition SUPPRESS_LOGGING : bool := true.

Section WithRpcErrors.

(** [./rpc_errors] is not among the visible sources.  The payload found
    under [status.Failure], the error object [parseRpcError] builds
    from it, and the string a template literal renders that object to
    are kept abstract. *)
Variable ExecutionError : Type.
Variable ServerError : Type.
Variable parseRpcError : ExecutionError -> ServerError.
Variable errorToString : ServerError -> string.

(** The object form of an execution status; each member may be
    missing. *)
Record ExecutionStatus : Type := mkExecutionStatus {
  SuccessValue : option string;
  SuccessReceiptId : option string;
  Failure : option ExecutionError
}.

(** A status is either a bare string ('Unknown', 'Pending', ...) or an
    object. *)
Inductive Status : Type :=
| StatusBasic (tag : string)
| StatusObject (o : ExecutionStatus).

Record ExecutionOutcome : Type := mkExecutionOutcome {
  logs : list string;
  receipt_ids : list string;
  status : Status
}.

Record ExecutionOutcomeWithId : Type := mkExecutionOutcomeWithId {
  id : string;
  outcome : ExecutionOutcome
}.

Record FinalExecutionOutcome : Type := mkFinalExecutionOutcome {
  transaction_outcome : ExecutionOutcomeWithId;
  receipts_outcome : list ExecutionOutcomeWithId
}.

(** One element of [flatLogs]. [failure] is [null] when absent. *)
Record FlatLog : Type := mkFlatLog {
  receiptIds : list string;
  flat_logs : list string;
  failure : option ServerError
}.

(** [typeof status === 'object' && typeof status.Failure === 'object'] *)
Definition isFailure (st : Status) : bool :=
  match st with
  | StatusBasic _ => false
  | StatusObject o =>
      match Failure o with
      | Some _ => true
      | None => false
      end
  end.

(** [typeof status === 'object' && status.Failure !== undefined
       ? parseRpcError(status.Failure) : null] *)
Definition failureOf (st : Status) : option ServerError :=
  match st with
  | StatusBasic _ => None
  | StatusObject o =>
      match Failure o with
      | Some e => Some (parseRpcError e)
      | None => None
      end
  end.

(** The callback handed to [reduce]. *)
Definition flatLogs_step (acc : list FlatLog) (it : ExecutionOutcomeWithId)
  : list FlatLog :=
  if negb (Nat.eqb (length (logs (outcome it))) 0) || isFailure (status (outcome it))
  then acc ++ [ {| receiptIds := receipt_ids (outcome it);
                   flat_logs := logs (outcome it);
                   failure := failureOf (status (outcome it)) |} ]
  else acc.

(** [[outcome.transaction_outcome, ...outcome.receipts_outcome]] *)
Definition nodes (o : FinalExecutionOutcome) : list ExecutionOutcomeWithId :=
  transaction_outcome o :: receipts_outcome o.

(** [[...].reduce((acc, it) => ..., [])] *)
Definition flatLogs (o : FinalExecutionOutcome) : list FlatLog :=
  fold_left flatLogs_step (nodes o) [].

(** The three template literals of the module. *)
Definition receipt_line (ids : list string) : JS.ConsoleCall :=
  JS.console_log
    ("Receipt" +:+ (if Nat.ltb 1 (length ids) then "s" else "")
       +:+ ": " +:+ JS.join ", " ids).

Definition log_line (prefix contractId log : string) : JS.ConsoleCall :=
  JS.console_log (prefix +:+ "Log [" +:+ contractId +:+ "]: " +:+ log).

Definition failure_line (contractId : string) (f : ServerError)
  : JS.ConsoleCall :=
  JS.console_warn
    (JS.TAB +:+ "Failure [" +:+ contractId +:+ "]: " +:+ errorToString f).

(** The functions below take the value of the suppression constant as
    an argument, so that the statements past the early return can be
    spoken about; the exported functions fix it to [SUPPRESS_LOGGING]. *)
Section SuppressFlag.

Variable suppress : bool.

(** [function printTxOutcomeLogs({ contractId, logs, prefix = '' })] *)
Definition printTxOutcomeLogs_with
    (contractId : string) (ls : list string) (prefix : option string)
  : list JS.ConsoleCall :=
  if suppress then []
  else
    let prefix := match prefix with Some p => p | None => "" end in
    map (log_line prefix contractId) ls.

(** The body of the [for (const result of flatLogs)] loop;
    [if (result.failure)] tests an object or [null]. *)
Definition report (contractId : string) (result : FlatLog)
  : list JS.ConsoleCall :=
  [ receipt_line (receiptIds result) ]
  ++ printTxOutcomeLogs_with contractId (flat_logs result) (Some JS.TAB)
  ++ match failure result with
     | Some f => [ failure_line contractId f ]
     | None => []
     end.

(** [function printTxOutcomeLogsAndFailures({ contractId, outcome })] *)
Definition printTxOutcomeLogsAndFailures_with
    (contractId : string) (o : FinalExecutionOutcome)
  : list JS.ConsoleCall :=
  if suppress then []
  else flat_map (report contractId) (flatLogs o).

End SuppressFlag.

(** What one node adds to [flatLogs]: an element, or nothing. *)
Definition flatLogs_of_node (it : ExecutionOutcomeWithId) : list FlatLog :=
  flatLogs_step [] it.

(** What the loop prints for one node when nothing is suppressed. *)
Definition node_report (contractId : string) (it : ExecutionOutcomeWithId)
  : list JS.ConsoleCall :=
  flat_map (report false contractId) (flatLogs_of_node it).

(** The warning a node with a Failure status gives rise to. *)
Definition node_failure_lines (contractId : string) (it : ExecutionOutcomeWithId)
  : list JS.ConsoleCall :=
  match failureOf (status (outcome it)) with
  | Some f => [ failure_line contractId f ]
  | None => []
  end.

Definition printTxOutcomeLogs := printTxOutcomeLogs_with SUPPRESS_LOGGING.

Definition printTxOutcomeLogsAndFailures :=
  printTxOutcomeLogsAndFailures_with SUPPRESS_LOGGING.

End WithRpcErrors.

Arguments StatusBasic {ExecutionError} tag.
Arguments StatusObject {ExecutionError} o.
Arguments mkExecutionStatus {ExecutionError}.
Arguments mkExecutionOutcome {ExecutionError}.
Arguments mkExecutionOutcomeWithId {ExecutionError}.
Arguments mkFinalExecutionOutcome {ExecutionError}.
Arguments logs {ExecutionError}.
Arguments receipt_ids {ExecutionError}.
Arguments status {ExecutionError}.
Arguments outcome {ExecutionError}.
Arguments id {ExecutionError}.
Arguments transaction_outcome {ExecutionError}.
Arguments receipts_outcome {ExecutionError}.
Arguments Failure {ExecutionError}.
Arguments nodes {ExecutionError}.
Arguments isFailure {ExecutionError}.
Arguments failureOf {ExecutionError ServerError}.
Arguments flatLogs {ExecutionError ServerError}.
Arguments flatLogs_step {ExecutionError ServerError}.
Arguments flat_logs {ServerError}.
Arguments failure {ServerError}.
Arguments receiptIds {ServerError}.
Arguments report {ServerError}.
Arguments failure_line {ServerError}.
Arguments flatLogs_of_node {ExecutionError ServerError}.
Arguments node_report {ExecutionError ServerError}.
Arguments node_failure_lines {ExecutionError ServerError}.
Arguments printTxOutcomeLogs_with suppress contractId ls prefix : assert.
Arguments printTxOutcomeLogsAndFailures_with {ExecutionError ServerError}.
Arguments printTxOutcomeLogsAndFailures {ExecutionError ServerError}.

(** The outcome of the specification's scenario: the root is a Success
    that points at a receipt, and that receipt failed.  The Failure
    payload is its error kind, and parsing and rendering leave it as it
    is. *)
Definition scenario_root : ExecutionOutcomeWithId string :=
  {| id := "tx";
     outcome :=
       {| logs := ["transfer accepted"];
          receipt_ids := ["r1"];
          status := StatusObject
                      {| SuccessValue := None;
                         SuccessReceiptId := Some "r1";
                         Failure := None |} |} |}.

Definition scenario_receipt : ExecutionOutcomeWithId string :=
  {| id := "r1";
     outcome :=
       {| logs := ["calling method"];
          receipt_ids := [];
          status := StatusObject
                      {| SuccessValue := None;
                         SuccessReceiptId := None;
                         Failure := Some "FunctionCallError" |} |} |}.

Definition scenario : FinalExecutionOutcome string :=
  {| transaction_outcome := scenario_root;
     receipts_outcome := [scenario_receipt] |}.

End Logging.

(* ===================================================================== *)
(** ** src/key_stores/browser_local_storage_key_store.ts *)
(* ===================================================================== *)

Module KeyStore.

(** [const LOCAL_STORAGE_KEY_PREFIX = 'near-api-js:keystore:';] *)
Definition LOCAL_STORAGE_KEY_PREFIX : string := "near-api-js:keystore:".

(** The character [':']. *)
Definition COLON : Ascii.ascii := Ascii.ascii_of_nat 58.

(** [String.prototype.startsWith] *)
Fixpoint startsWith (s p : string) : bool :=
  match p, s with
  | EmptyString, _ => true
  | String a p', String b s' => Ascii.eqb a b && startsWith s' p'
  | String _ _, EmptyString => false
  end.

(** [String.prototype.substring] with a single argument. *)
Fixpoint substring_from (n : nat) (s : string) : string :=
  match n, s with
  | O, _ => s
  | S n', String _ s' => substring_from n' s'
  | S _, EmptyString => EmptyString
  end.

(** [String.prototype.split] on a one-character separator: the result
    always has at least one element. *)
Fixpoint split (sep : Ascii.ascii) (s : string) : list string :=
  match s with
  | EmptyString => [EmptyString]
  | String c rest =>
      if Ascii.eqb c sep then EmptyString :: split sep rest
      else match split sep rest with
           | p :: ps => String c p :: ps
           | [] => [String c EmptyString]
           end
  end.

(** What a generator object produces when it is run to completion: the
    values of its [yield]s and the value of its [return]. *)
Record Generator (Y R : Type) : Type := mkGenerator {
  yielded : list Y;
  returned : R
}.
Arguments mkGenerator {Y R}.
Arguments yielded {Y R}.
Arguments returned {Y R}.

(** [for (const y of g) body]: the loop sees the yielded values only;
    the generator's return value is dropped. *)
Definition for_of {Y R S : Type}
    (g : Generator Y R) (body : S -> Y -> S) (s : S) : S :=
  fold_left body (yielded g) s.

(** The same loop with a body that may throw. *)
Fixpoint for_each_try {Y S E : Type}
    (ys : list Y) (body : S -> Y -> E + S) (s : S) : E + S :=
  match ys with
  | [] => inr s
  | y :: ys' =>
      match body s y with
      | inl e => inl e
      | inr s' => for_each_try ys' body s'
      end
  end.

Definition for_of_try {Y R S E : Type}
    (g : Generator Y R) (body : S -> Y -> E + S) (s : S) : E + S :=
  for_each_try (yielded g) body s.

(** [Set.prototype.add] on a set kept in insertion order, which is the
    order [Array.from(result.values())] reads it back in. An element is
    a string or [undefined]. *)
Definition Set_add (x : option string) (s : list (option string))
  : list (option string) :=
  if bool_decide (x ∈ s) then s else s ++ [x].

(** A call of a member that is not a function. *)
Inductive TypeError : Type :=
| not_a_function (member : string).

(** The instance: [private localStorage: any; private prefix: string].
    [localStorage] is a plain object used as a dictionary. Every
    property name this class reads or writes contains [':'], so none
    of them is found on [Object.prototype]. *)
Record BrowserLocalStorageKeyStore : Type := mkKeyStore {
  localStorage : gmap string string;
  prefix : string
}.

(** [chrome.storage.local], seen as a dictionary. *)
Definition ChromeStorage : Type := gmap string string.

(** [constructor(localStorage = globalThis.localStorage,
                 prefix = LOCAL_STORAGE_KEY_PREFIX)]: the first argument
    is ignored, the dictionary starts empty. *)
Definition new (prefix : option string) : BrowserLocalStorageKeyStore :=
  {| localStorage := ∅;
     prefix := match prefix with
               | Some p => p
               | None => LOCAL_STORAGE_KEY_PREFIX
               end |}.

(** The callback the constructor registers on
    [chrome.storage.local.get()]: [this.localStorage = { ...result }]. *)
Definition on_storage_loaded
    (result : ChromeStorage) (this : BrowserLocalStorageKeyStore)
  : BrowserLocalStorageKeyStore :=
  {| localStorage := result; prefix := prefix this |}.

(** [return `${this.prefix}${accountId}:${networkId}`;] *)
Definition storageKeyForSecretKey
    (this : BrowserLocalStorageKeyStore) (networkId accountId : string)
  : string :=
  prefix this +:+ accountId +:+ ":" +:+ networkId.

(** [Object.values]; the enumeration order plays no part below. *)
Definition Object_values (o : gmap string string) : list string :=
  (map_to_list o).*2.

(** [private *storageKeys() { return Object.values(this.localStorage); }]
    has no [yield]. *)
Definition storageKeys (this : BrowserLocalStorageKeyStore)
  : Generator string (list string) :=
  {| yielded := []; returned := Object_values (localStorage this) |}.

Section WithKeyPair.

(** [../utils/key_pair] is not among the visible sources. *)
Variable KeyPair : Type.
Variable KeyPair_toString : KeyPair -> string.
Variable KeyPair_fromString : string -> string + KeyPair.

(** [async setKey(networkId, accountId, keyPair)] *)
Definition setKey
    (this : BrowserLocalStorageKeyStore) (chrome : ChromeStorage)
    (networkId accountId : string) (keyPair : KeyPair)
  : BrowserLocalStorageKeyStore * ChromeStorage :=
  ({| localStorage :=
        <[ storageKeyForSecretKey this networkId accountId
           := KeyPair_toString keyPair ]> (localStorage this);
      prefix := prefix this |},
   <[ "near_app_wallet_auth_key" := KeyPair_toString keyPair ]> chrome).

(** [async getKey(networkId, accountId)]: [inr None] is [null], [inl]
    is whatever [KeyPair.fromString] throws. *)
Definition getKey
    (this : BrowserLocalStorageKeyStore) (networkId accountId : string)
  : string + option KeyPair :=
  let value :=
    localStorage this !! storageKeyForSecretKey this networkId accountId in
  if negb (JS.truthy value) then inr None
  else match value with
       | Some v =>
           match KeyPair_fromString v with
           | inl e => inl e
           | inr kp => inr (Some kp)
           end
       | None => inr None
       end.

(** [async removeKey(networkId, accountId)] *)
Definition removeKey
    (this : BrowserLocalStorageKeyStore) (chrome : ChromeStorage)
    (networkId accountId : string)
  : BrowserLocalStorageKeyStore * ChromeStorage :=
  ({| localStorage :=
        delete (storageKeyForSecretKey this networkId accountId)
               (localStorage this);
      prefix := prefix this |},
   delete (storageKeyForSecretKey this networkId accountId) chrome).

End WithKeyPair.

Arguments setKey {KeyPair}.
Arguments getKey {KeyPair}.

(** The body of the loop in [clear]: [this.localStorage] is a plain
    object, always truthy, and has no callable [removeItem]. *)
Definition clear_body
    (this : BrowserLocalStorageKeyStore) (key : string)
  : TypeError + BrowserLocalStorageKeyStore :=
  if startsWith key (prefix this)
  then inl (not_a_function "this.localStorage.removeItem")
  else inr this.

(** [async clear()] *)
Definition clear (this : BrowserLocalStorageKeyStore)
  : TypeError + BrowserLocalStorageKeyStore :=
  for_of_try (storageKeys this) clear_body this.

(** The body of the loop in [getNetworks]. *)
Definition getNetworks_body
    (this : BrowserLocalStorageKeyStore)
    (result : list (option string)) (key : string)
  : list (option string) :=
  if startsWith key (prefix this)
  then
    let parts :=
      split COLON (substring_from (String.length (prefix this)) key) in
    Set_add (parts !! 1%nat) result
  else result.

(** [async getNetworks()] *)
Definition getNetworks (this : BrowserLocalStorageKeyStore)
  : list (option string) :=
  for_of (storageKeys this) (getNetworks_body this) [].

(** The body of the loop in [getAccounts]. *)
Definition getAccounts_body
    (this : BrowserLocalStorageKeyStore) (networkId : string)
    (result : list (option string)) (key : string)
  : list (option string) :=
  if startsWith key (prefix this)
  then
    let parts :=
      split COLON (substring_from (String.length (prefix this)) key) in
    if bool_decide (parts !! 1%nat = Some networkId)
    then result ++ [parts !! 0%nat]
    else result
  else result.

(** [async getAccounts(networkId)] *)
Definition getAccounts
    (this : BrowserLocalStorageKeyStore) (networkId : string)
  : list (option string) :=
  for_of (storageKeys this) (getAccounts_body this networkId) [].

End KeyStore.

(* ===================================================================== *)
(** ** The Connection class *)
(* ===================================================================== *)

Module Connection.

(** What the [type] member of a config object can hold, as far as a
    [switch] with strict equality and a template literal can tell:
    [undefined], a string, or anything else together with the text a
    template literal renders it to ([null] gives ["null"]). *)
Inductive TypeMember : Type :=
| type_undefined
| type_string (s : string)
| type_other (rendered : string).

(** [`${config.type}`] *)
Definition render (t : TypeMember) : string :=
  match t with
  | type_undefined => "undefined"
  | type_string s => s
  | type_other r => r
  end.

(** [new Error(message)] *)
Inductive JSError : Type :=
| Error (message : string).

(** [Object.assign({}, source)]: a fresh object with the own members of
    [source]; nothing is copied from [undefined]. *)
Definition Object_assign_empty (source : option (gmap string string))
  : gmap string string :=
  match source with
  | Some o => o
  | None => ∅
  end.

Section WithClasses.

(** [./providers] and [./signer] are not among the visible sources:
    their instances are recorded by the constructor call that makes
    them. [Members] stands for whatever else a provider or signer
    object carries, [KeyStore] for the key store handed to
    [InMemorySigner], and [inspect] for the way [console.log] shows
    it. *)
Variable Members : Type.
Variable KeyStore : Type.
Variable inspect : option KeyStore -> string.

(** The object passed as [config.provider] or [config.signer]: the
    members the functions read, and the rest. *)
Record ConfigObject : Type := mkConfigObject {
  type : TypeMember;
  args : option (gmap string string);
  keyStore : option KeyStore;
  members : Members
}.

Inductive Provider : Type :=
| provider_as_is (config : ConfigObject)
| new_JsonRpcProvider (connectionInfo : gmap string string).

Inductive Signer : Type :=
| signer_as_is (config : ConfigObject)
| new_InMemorySigner (keyStore : option KeyStore).

(** [function getProvider(config)] *)
Definition getProvider (config : ConfigObject) : JSError + Provider :=
  match type config with
  | type_undefined => inr (provider_as_is config)
  | type_string s =>
      if String.eqb s "JsonRpcProvider"
      then inr (new_JsonRpcProvider (Object_assign_empty (args config)))
      else inl (Error ("Unknown provider type " +:+ render (type config)))
  | type_other _ =>
      inl (Error ("Unknown provider type " +:+ render (type config)))
  end.

(** [function getSigner(config)], with what it writes to the console. *)
Definition getSigner (config : ConfigObject)
  : list JS.ConsoleCall * (JSError + Signer) :=
  match type config with
  | type_undefined => ([], inr (signer_as_is config))
  | type_string s =>
      if String.eqb s "InMemorySigner"
      then ([JS.console_log
               ("inmemory signer " +:+ " " +:+ inspect (keyStore config))],
            inr (new_InMemorySigner (keyStore config)))
      else ([], inl (Error ("Unknown signer type " +:+ render (type config))))
  | type_other _ =>
      ([], inl (Error ("Unknown signer type " +:+ render (type config))))
  end.

(** [class Connection]: the four fields set by the constructor. *)
Record Connection : Type := mkConnection {
  networkId : option string;
  provider : Provider;
  signer : Signer;
  jsvmAccountId : option string
}.

(** The argument of [Connection.fromConfig]. *)
Record Config : Type := mkConfig {
  config_networkId : option string;
  config_provider : ConfigObject;
  config_signer : ConfigObject;
  config_jsvmAccountId : option string
}.

(** [static fromConfig(config)] *)
Definition fromConfig (config : Config)
  : list JS.ConsoleCall * (JSError + Connection) :=
  match getProvider (config_provider config) with
  | inl e => ([], inl e)
  | inr provider =>
      match getSigner (config_signer config) with
      | (out, inl e) => (out, inl e)
      | (out, inr signer) =>
          (out, inr {| networkId := config_networkId config;
                       provider := provider;
                       signer := signer;
                       jsvmAccountId := config_jsvmAccountId config |})
      end
  end.

End WithClasses.

Arguments mkConfigObject {Members KeyStore}.
Arguments type {Members KeyStore}.
Arguments args {Members KeyStore}.
Arguments keyStore {Members KeyStore}.
Arguments members {Members KeyStore}.
Arguments provider_as_is {Members KeyStore}.
Arguments new_JsonRpcProvider {Members KeyStore}.
Arguments signer_as_is {Members KeyStore}.
Arguments new_InMemorySigner {Members KeyStore}.
Arguments getProvider {Members KeyStore}.
Arguments getSigner {Members KeyStore}.
Arguments fromConfig {Members KeyStore}.
Arguments mkConfig {Members KeyStore}.
Arguments mkConnection {Members KeyStore}.
Arguments networkId {Members KeyStore}.
Arguments provider {Members KeyStore}.
Arguments signer {Members KeyStore}.
Arguments jsvmAccountId {Members KeyStore}.
Arguments config_networkId {Members KeyStore}.
Arguments config_provider {Members KeyStore}.
Arguments config_signer {Members KeyStore}.
Arguments config_jsvmAccountId {Members KeyStore}.

End Connection.

(* ===================================================================== *)
(** ** The submission pipeline of the specification

    The account, transaction and provider modules that implement nonce
    handling, encoding and submission are not among the visible sources;
    only declarations that import them are.  The modules below are written
    from the specification's component design. *)
(* ===================================================================== *)

Module NetworkClient.

(** Modelled from the spec: the machine-readable kinds that tag the
    errors of the network client (external interfaces), which is
    missing from the sources. The list is the one the specification
    gives for the three retry classes. *)
Inductive ErrorKind : Type :=
| timeout
| connectionReset
| serverError
| nodeSyncing
| rateLimited
| alreadyKnown
| invalidSignature
| invalidNonce
| notEnoughBalance
| accountNotFound
| actionError.

End NetworkClient.

Module NonceAllocator.

Import NetworkClient.

(** Modelled from the spec: the key of the nonce cache, which is missing
    from the sources: the "(account, access key) pair", the access key
    being named by its public key. *)
Definition Key : Type := (string * string)%type.

(** Modelled from the spec: the nonce cache of the NonceAllocator,
    which is missing from the sources: "a mapping keyed by (accountId,
    publicKey) to the last nonce issued". *)
Abbreviation Cache := (gmap (string * string) N).

(** Modelled from the spec: what [queryAccessKey] of the network client,
    which is missing from the sources, answers when it is asked: the
    on-chain nonce of the key, or a failure. *)
Definition ChainView : Type := (ErrorKind + N)%type.

(** Modelled from the spec: [reserve(accountId, publicKey)], which is
    missing from the sources.  The counter is a natural number without
    an upper bound here; the encoder is where a nonce that does not fit
    64 bits is refused.  "On a cache miss, queries NetworkClient
    for the access key's current on-chain nonce and seeds the cache with
    onChainNonce; each reserve call then atomically increments and
    returns cached + 1"; it "surfaces NetworkClient failures verbatim".
    [chain] is the answer the network would give at the time of the
    call; it is looked at on a miss only.  The whole call is one atomic
    step, as the concurrency model demands of reservation. *)
Definition reserve (cache : Cache) (k : Key) (chain : ChainView)
  : Cache * (ErrorKind + N) :=
  match cache !! k with
  | Some cached => (<[k := (cached + 1)%N]> cache, inr (cached + 1)%N)
  | None =>
      match chain with
      | inr onChainNonce =>
          (<[k := (onChainNonce + 1)%N]> cache, inr (onChainNonce + 1)%N)
      | inl e => (cache, inl e)
      end
  end.

(** Modelled from the spec: [invalidate], which is missing from the
    sources: "the allocator invalidates its cached entry for that key
    (forcing the next reserve to re-query on-chain state)". *)
Definition invalidate (cache : Cache) (k : Key) : Cache := delete k cache.

(** Modelled from the spec: one reservation call of a concurrent run,
    the callers being missing from the sources: the key it is for and the
    on-chain view at the moment the call holds the key's lock. *)
Record Call : Type := mkCall {
  call_key : Key;
  call_chain : ChainView
}.

(** Modelled from the spec: concurrent callers of [reserve], which
    "MUST be serialized through NonceAllocator's reservation step".  A
    run is the order in which the calls take the lock; the result lists,
    in that order, what each call returned. *)
Fixpoint run (cache : Cache) (calls : list Call)
  : Cache * list (Key * (ErrorKind + N)) :=
  match calls with
  | [] => (cache, [])
  | c :: rest =>
      let '(cache1, r) := reserve cache (call_key c) (call_chain c) in
      let '(cache2, rs) := run cache1 rest in
      (cache2, (call_key c, r) :: rs)
  end.

(** The answers a run gave to the calls for one key, in order. *)
Definition returned_for (k : Key) (rs : list (Key * (ErrorKind + N)))
  : list (ErrorKind + N) :=
  map snd (filter (fun kr => fst kr = k) rs).

(** The calls of a run that are for one key. *)
Definition calls_for (k : Key) (calls : list Call) : list Call :=
  filter (fun c => call_key c = k) calls.

(** [base+1, ..., base+n] *)
Definition nonces_after (base : N) (n : nat) : list N :=
  map (fun i => (base + N.of_nat i)%N) (seq 1 n).

End NonceAllocator.

Module TransactionEncoder.

(** Modelled from the spec: the byte strings the TransactionEncoder,
    which is missing from the sources, produces. *)
Definition bytes : Type := list Byte.byte.

(** Modelled from the spec: the tag of an Action, "tagged variant over
    {Transfer, FunctionCall, CreateAccount, DeleteAccount, AddKey,
    DeleteKey, DeployContract, Stake, Delegate}"; the type is missing
    from the sources. *)
Inductive ActionKind : Type :=
| Transfer
| FunctionCall
| CreateAccount
| DeleteAccount
| AddKey
| DeleteKey
| DeployContract
| Stake
| Delegate.

(** Modelled from the spec: the types of the fields of an Action, which
    are missing from the sources: "amounts as unsigned 128-bit integers,
    gas as unsigned 64-bit, method names/arguments as byte strings". *)
Inductive FieldType : Type :=
| u64
| u128
| byte_string.

(** Modelled from the spec: a field of an Action together with its
    value; the type is missing from the sources. *)
Inductive Field : Type :=
| Uint64 (n : N)
| Uint128 (n : N)
| ByteString (b : bytes).

(** Modelled from the spec: an Action, missing from the sources: its tag
    and its "small fixed set of typed fields", in declaration order. *)
Record Action : Type := mkAction {
  kind : ActionKind;
  fields : list Field
}.

(** Modelled from the spec: a Transaction, missing from the sources:
    "{signer account id, signer public key, nonce, receiver account id,
    block hash reference, ordered action list}". *)
Record Transaction : Type := mkTransaction {
  signerId : string;
  publicKey : bytes;
  nonce : N;
  receiverId : string;
  blockHash : bytes;
  actions : list Action
}.

(** Modelled from the spec: the low byte of a number, for the
    "fixed-width little-endian integers" of the encoder, which is
    missing from the sources. *)
Definition byte_of_N (n : N) : Byte.byte :=
  match Byte.of_N (n mod 256) with
  | Some b => b
  | None => Byte.x00
  end.

(** Modelled from the spec: the [w] low bytes of [n], least significant
    first ("fixed-width little-endian integers"); missing from the
    sources. *)
Fixpoint le_bytes (w : nat) (n : N) : bytes :=
  match w with
  | O => []
  | S w' => byte_of_N n :: le_bytes w' (n / 256)
  end.

(** Modelled from the spec: the number a little-endian byte string
    stands for; the decoder is missing from the sources. *)
Fixpoint le_value (b : bytes) : N :=
  match b with
  | [] => 0
  | x :: b' => (Byte.to_N x + 256 * le_value b')%N
  end.

(** Modelled from the spec: a numeric field on [w] bytes; the encoder
    "fails with an EncodingError if any field violates its size/range
    constraint", which is [None] here.  Missing from the sources. *)
Definition encode_uint (w : nat) (n : N) : option bytes :=
  if (n <? 2 ^ (8 * N.of_nat w))%N then Some (le_bytes w n) else None.

(** Modelled from the spec: the width of a length prefix.  The
    specification says "length-prefixed" without a width; four bytes are
    taken here, and nothing below depends on the number. *)
Definition LENGTH_WIDTH : nat := 4.

(** Modelled from the spec: "length-prefixed byte strings for
    variable-length fields (strings, argument blobs)"; missing from the
    sources. *)
Definition encode_bytes (b : bytes) : option bytes :=
  len ← encode_uint LENGTH_WIDTH (N.of_nat (length b));
  Some (len ++ b).

(** Modelled from the spec: a string is the byte string of its
    characters; missing from the sources. *)
Definition encode_string (s : string) : option bytes :=
  encode_bytes (list_byte_of_string s).

(** Modelled from the spec: one typed field; a value of another type
    than the declared one cannot be encoded.  Missing from the sources. *)
Definition encode_field (t : FieldType) (f : Field) : option bytes :=
  match t, f with
  | u64, Uint64 n => encode_uint 8 n
  | u128, Uint128 n => encode_uint 16 n
  | byte_string, ByteString b => encode_bytes b
  | _, _ => None
  end.

(** Modelled from the spec: "that variant's fields in declaration
    order"; missing from the sources. *)
Fixpoint encode_fields (ts : list FieldType) (fs : list Field)
  : option bytes :=
  match ts, fs with
  | [], [] => Some []
  | t :: ts', f :: fs' =>
      b ← encode_field t f;
      bs ← encode_fields ts' fs';
      Some (b ++ bs)
  | _, _ => None
  end.

Section Layout.

(** The specification names neither the declared fields of each variant
    nor the values of the discriminant bytes: both tables are kept
    abstract. *)
Variable schema : ActionKind -> list FieldType.
Variable discriminant : ActionKind -> Byte.byte.

(** Modelled from the spec: "a discriminant byte ahead of each tagged
    Action variant followed by that variant's fields"; missing from the
    sources. *)
Definition encode_action (a : Action) : option bytes :=
  body ← encode_fields (schema (kind a)) (fields a);
  Some (discriminant (kind a) :: body).

(** Modelled from the spec: the actions one after the other, "order is
    caller-significant and must be preserved byte-for-byte"; missing
    from the sources. *)
Fixpoint encode_action_seq (l : list Action) : option bytes :=
  match l with
  | [] => Some []
  | a :: l' =>
      b ← encode_action a;
      bs ← encode_action_seq l';
      Some (b ++ bs)
  end.

(** Modelled from the spec: the action list is a variable-length field,
    hence prefixed by its length; missing from the sources. *)
Definition encode_actions (l : list Action) : option bytes :=
  count ← encode_uint LENGTH_WIDTH (N.of_nat (length l));
  body ← encode_action_seq l;
  Some (count ++ body).

(** Modelled from the spec: [encode(transaction)], missing from the
    sources: "Fields are serialized in a fixed order", the order of the
    data model. *)
Definition encode (tx : Transaction) : option bytes :=
  s ← encode_string (signerId tx);
  pk ← encode_bytes (publicKey tx);
  n ← encode_uint 8 (nonce tx);
  r ← encode_string (receiverId tx);
  h ← encode_bytes (blockHash tx);
  a ← encode_actions (actions tx);
  Some (s ++ pk ++ n ++ r ++ h ++ a).

End Layout.

(** An encoder whose outputs can be told apart from what follows them:
    two outputs that agree up to their tails come from the same value
    and have the same tail. *)
Definition self_delimiting {A : Type} (enc : A -> option bytes) : Prop :=
  forall a a' b b' r r',
    enc a = Some b -> enc a' = Some b' -> b ++ r = b' ++ r' ->
    a = a' /\ r = r'.

End TransactionEncoder.

Module Submitter.

Import NetworkClient.

(** Modelled from the spec: what the pipeline is seen to do, one event
    per call it makes on a collaborator; the pipeline itself is missing
    from the sources.  Waiting times are not part of an event. *)
Inductive Event : Type :=
| QueryAccessKey (k : string * string)
| InvalidateNonce (k : string * string)
| Sign (nonce : N)
| Broadcast (envelope : list Byte.byte)
| Backoff (attempt : nat)
| PollStatus (hash : list Byte.byte) (senderId : string).

(** Modelled from the spec: the three classes of the Submitter's retry
    classification, which is missing from the sources. *)
Inductive FailureClass : Type :=
| Transient
| AlreadyExists
| Fatal.

(** Modelled from the spec: the classifier, missing from the sources.
    Transient: "connection reset, timeout, HTTP 5xx, node still syncing,
    rate-limited"; already-exists: "the exact transaction hash was
    already seen/committed"; fatal: "invalid signature, invalid nonce,
    insufficient balance, account not found, action validation
    failure". *)
Definition classify (kind : ErrorKind) : FailureClass :=
  match kind with
  | timeout | connectionReset | serverError | nodeSyncing | rateLimited =>
      Transient
  | alreadyKnown => AlreadyExists
  | invalidSignature | invalidNonce | notEnoughBalance | accountNotFound
  | actionError => Fatal
  end.

(** Modelled from the spec: what the Submitter needs of a
    SignedTransaction, which is missing from the sources: the signed
    bytes it broadcasts, the hash of the transaction and the sender. *)
Record SignedTransaction : Type := mkSignedTransaction {
  envelope : list Byte.byte;
  hash : list Byte.byte;
  senderId : string
}.

Section WithNetwork.

(** The network client is an external collaborator.  [Net] is the state
    of the network as a whole, [RawResult] a terminal raw execution
    result; a status that is not terminal yet is [None]. *)
Variable Net : Type.
Variable RawResult : Type.
Variable broadcastTransaction :
  Net -> list Byte.byte -> Net * (ErrorKind + list Byte.byte).
Variable getTransactionStatus :
  Net -> list Byte.byte -> string -> Net * option RawResult.

(** Modelled from the spec: how a submission ends, for the Submitter,
    which is missing from the sources: a terminal raw result, a fatal
    rejection, RetryExhaustedError or PendingTimeout. *)
Inductive SubmitResult : Type :=
| Final (raw : RawResult)
| Rejected (kind : ErrorKind)
| RetryExhausted
| PendingTimeout.

(** Modelled from the spec: the "bounded polling loop" of the Submitter,
    missing from the sources: "poll for status until it reaches a
    terminal state (Success or Failure) or a deadline elapses".  The
    deadline is the number of polls it leaves room for. *)
Fixpoint poll (deadline : nat) (net : Net) (stx : SignedTransaction)
  : Net * list Event * SubmitResult :=
  match deadline with
  | O => (net, [], PendingTimeout)
  | S deadline' =>
      let '(net1, st) := getTransactionStatus net (hash stx) (senderId stx) in
      match st with
      | Some raw => (net1, [PollStatus (hash stx) (senderId stx)], Final raw)
      | None =>
          let '(net2, tr, res) := poll deadline' net1 stx in
          (net2, PollStatus (hash stx) (senderId stx) :: tr, res)
      end
  end.

(** Modelled from the spec: the broadcast loop of the Submitter, missing
    from the sources.  A transient failure is "retried with exponential
    backoff and jitter, capped at a configurable maximum attempt count;
    the same already-signed transaction bytes are re-broadcast";
    already-exists "switches from broadcasting to polling for that
    hash's outcome"; a fatal failure is "surfaced immediately to the
    caller without retry"; "on exhausting retries with only transient
    failures observed, surfaces a RetryExhaustedError". *)
Fixpoint broadcast (attemptsLeft attempt deadline : nat)
    (net : Net) (stx : SignedTransaction)
  : Net * list Event * SubmitResult :=
  match attemptsLeft with
  | O => (net, [], RetryExhausted)
  | S attemptsLeft' =>
      let '(net1, reply) := broadcastTransaction net (envelope stx) in
      match reply with
      | inr _ =>
          let '(net2, tr, res) := poll deadline net1 stx in
          (net2, Broadcast (envelope stx) :: tr, res)
      | inl kind =>
          match classify kind with
          | Transient =>
              let '(net2, tr, res) :=
                broadcast attemptsLeft' (S attempt) deadline net1 stx in
              (net2, Broadcast (envelope stx) :: Backoff attempt :: tr, res)
          | AlreadyExists =>
              let '(net2, tr, res) := poll deadline net1 stx in
              (net2, Broadcast (envelope stx) :: tr, res)
          | Fatal => (net1, [Broadcast (envelope stx)], Rejected kind)
          end
      end
  end.

(** Modelled from the spec: [submit(signedTransaction)], missing from
    the sources, with its wait policy: the cap on broadcast attempts and
    the polling deadline. *)
Definition submit (maxAttempts deadline : nat)
    (net : Net) (stx : SignedTransaction)
  : Net * list Event * SubmitResult :=
  broadcast maxAttempts 0 deadline net stx.

(** An event a submission of [stx] may give rise to: a broadcast of its
    very bytes, a wait, or a poll for its hash.  No signature, no nonce
    lookup. *)
Definition event_of_submission (stx : SignedTransaction) (ev : Event)
  : Prop :=
  match ev with
  | Broadcast b => b = envelope stx
  | Backoff _ => True
  | PollStatus h s => h = hash stx /\ s = senderId stx
  | Sign _ | QueryAccessKey _ | InvalidateNonce _ => False
  end.

(** The network commits a transaction at most once: [ledger net h] is
    the outcome committed for the hash [h], if any, and neither a
    broadcast nor a status request changes a committed outcome; a
    terminal status is the committed outcome. *)
Record commits_once (ledger : Net -> list Byte.byte -> option RawResult)
  : Prop := mkCommitsOnce {
  status_is_committed :
    forall net h s net' raw,
      getTransactionStatus net h s = (net', Some raw) ->
      ledger net' h = Some raw;
  broadcast_keeps :
    forall net b h raw,
      ledger net h = Some raw ->
      ledger (broadcastTransaction net b).1 h = Some raw;
  status_keeps :
    forall net h' s h raw,
      ledger net h = Some raw ->
      ledger (getTransactionStatus net h' s).1 h = Some raw
}.

End WithNetwork.

Arguments Final {RawResult}.
Arguments Rejected {RawResult}.
Arguments RetryExhausted {RawResult}.
Arguments PendingTimeout {RawResult}.
Arguments poll {Net RawResult}.
Arguments broadcast {Net RawResult}.
Arguments submit {Net RawResult}.
Arguments commits_once {Net RawResult}.
Arguments status_is_committed {Net RawResult _ _ ledger}.
Arguments broadcast_keeps {Net RawResult _ _ ledger}.
Arguments status_keeps {Net RawResult _ _ ledger}.

End Submitter.

Module Pipeline.

Import NetworkClient NonceAllocator Submitter.

(** Modelled from the spec: the error taxonomy of the caller-facing
    surface, which is missing from the sources, as far as the
    submission path raises it. *)
Inductive PipelineError : Type :=
| NetworkClientFailure (kind : ErrorKind)
| SigningError
| NonceConflictError
| NetworkFatalError (kind : ErrorKind)
| RetryExhaustedError
| PendingTimeoutError.

Section WithCollaborators.

Variable Net : Type.
Variable RawResult : Type.
Variable broadcastTransaction :
  Net -> list Byte.byte -> Net * (ErrorKind + list Byte.byte).
Variable getTransactionStatus :
  Net -> list Byte.byte -> string -> Net * option RawResult.

(** [queryAccessKey] reads the on-chain nonce of a key and leaves the
    network as it is. *)
Variable queryAccessKey : Net -> Key -> ChainView.

(** The Signer, applied to the transaction the caller asked for once
    the nonce is known: it encodes and signs, or fails with a
    SigningError ([None]). *)
Variable sign : N -> option SignedTransaction.

(** The wait policy and the access key of one call. *)
Variable maxAttempts deadline : nat.
Variable key : Key.

(** Modelled from the spec: how a submission result reaches the caller,
    for the caller-facing surface, which is missing from the sources. *)
Definition surface (res : SubmitResult RawResult) : PipelineError + RawResult :=
  match res with
  | Final raw => inr raw
  | Rejected kind => inl (NetworkFatalError kind)
  | RetryExhausted => inl RetryExhaustedError
  | PendingTimeout => inl PendingTimeoutError
  end.

(** Modelled from the spec: one pass of the pipeline, missing from the
    sources: "nonce reservation must complete before encoding, encoding
    before signing, signing before broadcast".  The on-chain nonce is
    asked for when the key is not cached, and then only. *)
Definition attempt (cache : gmap (string * string) N) (net : Net)
  : gmap (string * string) N * Net * list Event
    * (PipelineError + SubmitResult RawResult) :=
  let lookup :=
    match cache !! key with
    | None => [QueryAccessKey key]
    | Some _ => []
    end in
  match reserve cache key (queryAccessKey net key) with
  | (cache1, inl e) => (cache1, net, lookup, inl (NetworkClientFailure e))
  | (cache1, inr nonce) =>
      match sign nonce with
      | None => (cache1, net, lookup ++ [Sign nonce], inl SigningError)
      | Some stx =>
          let '(net1, tr, res) :=
            submit broadcastTransaction getTransactionStatus
                   maxAttempts deadline net stx in
          (cache1, net1, lookup ++ [Sign nonce] ++ tr, inr res)
      end
  end.

(** Modelled from the spec: the test for a pass that ended on the
    network rejecting the nonce, for the submission path, which is
    missing from the sources. *)
Definition nonce_conflict (r : PipelineError + SubmitResult RawResult) : bool :=
  match r with
  | inr (Rejected invalidNonce) => true
  | _ => false
  end.

(** Modelled from the spec: what a pass hands to the caller, for the
    submission path, which is missing from the sources. *)
Definition surface_attempt (r : PipelineError + SubmitResult RawResult)
  : PipelineError + RawResult :=
  match r with
  | inl e => inl e
  | inr res => surface res
  end.

(** Modelled from the spec: the submission path of [sendTransaction],
    missing from the sources.  "Nonce-conflict is retried exactly once
    (cache refresh + re-sign with corrected nonce) before being treated
    as fatal"; the cache entry is invalidated whenever "a subsequent
    broadcast is rejected by the network specifically for invalid
    nonce". *)
Definition sendTransaction (cache : gmap (string * string) N) (net : Net)
  : gmap (string * string) N * Net * list Event * (PipelineError + RawResult) :=
  let '(cache1, net1, tr1, r1) := attempt cache net in
  if nonce_conflict r1 then
    let '(cache2, net2, tr2, r2) := attempt (invalidate cache1 key) net1 in
    if nonce_conflict r2
    then (invalidate cache2 key, net2,
          tr1 ++ [InvalidateNonce key] ++ tr2 ++ [InvalidateNonce key],
          inl NonceConflictError)
    else (cache2, net2, tr1 ++ [InvalidateNonce key] ++ tr2, surface_attempt r2)
  else (cache1, net1, tr1, surface_attempt r1).

End WithCollaborators.

(** The number of signatures and of nonce invalidations in a trace. *)
Definition is_Sign (ev : Event) : bool :=
  match ev with Sign _ => true | _ => false end.

Definition is_InvalidateNonce (ev : Event) : bool :=
  match ev with InvalidateNonce _ => true | _ => false end.

Definition signatures (tr : list Event) : nat :=
  length (List.filter is_Sign tr).

Definition invalidations (tr : list Event) : nat :=
  length (List.filter is_InvalidateNonce tr).

End Pipeline.

(* ===================================================================== *)
(** ** Scenarios of the specification, used to exercise the statements *)
(* ===================================================================== *)

Module Scenario.

Import NetworkClient NonceAllocator TransactionEncoder Submitter Pipeline.

(** Key K of account A. *)
Definition K : Key := ("a.near", "ed25519:K").

(** A run of four reservations: three for K, the first of which finds
    the on-chain nonce 5, and one for another key in between. *)
Definition four_calls : list Call :=
  [ {| call_key := K; call_chain := inr 5%N |};
    {| call_key := ("b.near", "ed25519:J"); call_chain := inr 40%N |};
    {| call_key := K; call_chain := inl timeout |};
    {| call_key := K; call_chain := inr 9%N |} ].

(** A layout to encode with: the variants numbered in the order the
    specification lists them, and a few declared fields each. *)
Definition example_discriminant (k : ActionKind) : Byte.byte :=
  match k with
  | Transfer => Byte.x00
  | FunctionCall => Byte.x01
  | CreateAccount => Byte.x02
  | DeleteAccount => Byte.x03
  | AddKey => Byte.x04
  | DeleteKey => Byte.x05
  | DeployContract => Byte.x06
  | Stake => Byte.x07
  | Delegate => Byte.x08
  end.

Definition example_schema (k : ActionKind) : list FieldType :=
  match k with
  | Transfer => [u128]
  | FunctionCall => [byte_string; byte_string; u64; u128]
  | CreateAccount => []
  | DeleteAccount => [byte_string]
  | AddKey => [byte_string; u64]
  | DeleteKey => [byte_string]
  | DeployContract => [byte_string]
  | Stake => [u128; byte_string]
  | Delegate => [byte_string]
  end.

(** "account A ... submits a Transfer of 1 unit to account B", with the
    nonce left open. *)
Definition transfer (nonce : N) : Transaction :=
  {| signerId := "a.near";
     publicKey := list_byte_of_string "ed25519:K";
     nonce := nonce;
     receiverId := "b.near";
     blockHash := [Byte.x2a];
     actions := [ {| kind := Transfer; fields := [Uint128 1%N] |} ] |}.

(** A signer for that transfer; the digest and the signature are not
    modelled, the encoding stands for both. *)
Definition sign_transfer (nonce : N) : option SignedTransaction :=
  match encode example_schema example_discriminant (transfer nonce) with
  | Some b => Some {| envelope := b; hash := b; senderId := "a.near" |}
  | None => None
  end.

(** A signed transaction to submit. *)
Definition signed : SignedTransaction :=
  {| envelope := [Byte.x01; Byte.x02; Byte.x03];
     hash := [Byte.xaa];
     senderId := "a.near" |}.

(** A network, seen as the number of broadcasts it has received, on
    which the first broadcast lands although it is answered by a
    timeout, and every later one is answered by [alreadyKnown]. *)
Definition lossy_broadcast (net : nat) (b : list Byte.byte)
  : nat * (ErrorKind + list Byte.byte) :=
  (S net, match net with O => inl timeout | S _ => inl alreadyKnown end).

Definition lossy_ledger (net : nat) (h : list Byte.byte) : option string :=
  match net with O => None | S _ => Some "SuccessValue" end.

Definition lossy_status (net : nat) (h : list Byte.byte) (s : string)
  : nat * option string :=
  (net, lossy_ledger net h).

(** "network returns invalidNonce on first broadcast (key was used
    elsewhere meanwhile)": the on-chain nonce is 5 before the first
    broadcast and 7 after it. *)
Definition contended_broadcast (net : nat) (b : list Byte.byte)
  : nat * (ErrorKind + list Byte.byte) :=
  (S net, match net with O => inl invalidNonce | S _ => inr b end).

Definition contended_status (net : nat) (h : list Byte.byte) (s : string)
  : nat * option string :=
  (net, Some "SuccessValue").

Definition contended_query (net : nat) (k : Key) : ChainView :=
  match net with O => inr 5%N | S _ => inr 7%N end.

(** A provider config naming the JSON-RPC class, a signer passed as an
    object, and the config that holds both. *)
Definition rpc_provider : Connection.ConfigObject unit unit :=
  {| Connection.type := Connection.type_string "JsonRpcProvider";
     Connection.args := Some {[ "url" := "https://rpc.testnet.near.org" ]};
     Connection.keyStore := None;
     Connection.members := tt |}.

Definition plain_signer : Connection.ConfigObject unit unit :=
  {| Connection.type := Connection.type_undefined;
     Connection.args := None;
     Connection.keyStore := None;
     Connection.members := tt |}.

Definition testnet_config : Connection.Config unit unit :=
  {| Connection.config_networkId := Some "testnet";
     Connection.config_provider := rpc_provider;
     Connection.config_signer := plain_signer;
     Connection.config_jsvmAccountId := Some "jsvm.testnet" |}.

End Scenario.

(* ===================================================================== *)
(** ** Further parts of the visible sources *)
(* ===================================================================== *)

Module Warning.

(** The global [process] as [logWarning] meets it: the name may not be
    declared at all, it may hold [null] or [undefined], or an object. *)
Record Process : Type := mkProcess {
  env : option (gmap string string)
}.

Inductive ProcessBinding : Type :=
| process_undeclared
| process_nullish
| process_object (p : Process).

(** What reading [process] or [process.env[...]] can throw. *)
Inductive Thrown : Type :=
| ReferenceError (name : string)
| TypeError (member : string).

(** [function logWarning(...args)] of lib/utils/errors.js:
    {[
      if (!(process === null || process === void 0
              ? void 0 : process.env['NEAR_NO_LOGS'])) {
          console.warn(...args);
      }
    ]}
    The result lists the calls of [console.warn], each with its
    arguments. *)
Definition logWarning {Value : Type}
    (process : ProcessBinding) (args : list Value)
  : Thrown + list (list Value) :=
  match process with
  | process_undeclared => inl (ReferenceError "process")
  | process_nullish => inr [args]
  | process_object p =>
      match env p with
      | None => inl (TypeError "NEAR_NO_LOGS")
      | Some e =>
          if negb (JS.truthy (e !! "NEAR_NO_LOGS")) then inr [args]
          else inr []
      end
  end.

End Warning.

Module KeyFormat.

(** [s.includes(':')] *)
Fixpoint has_colon (s : string) : bool :=
  match s with
  | EmptyString => false
  | String c s' => Ascii.eqb c KeyStore.COLON || has_colon s'
  end.

(** The name under which [setKey] writes to [chrome.storage.local]. *)
Definition AUTH_KEY : string := "near_app_wallet_auth_key".

(** An instance as a page that is opened later finds it: constructed
    with the given prefix, and its dictionary replaced by what
    [chrome.storage.local] holds. *)
Definition reopened (prefix : string) (chrome : KeyStore.ChromeStorage)
  : KeyStore.BrowserLocalStorageKeyStore :=
  KeyStore.on_storage_loaded chrome (KeyStore.new (Some prefix)).

End KeyFormat.

Module KeyStoreRun.

Import KeyStore KeyFormat.

Section WithKeyPair.

Variable KeyPair : Type.
Variable KeyPair_toString : KeyPair -> string.

(** What happens to an instance once it is constructed: a call of
    [setKey] or of [removeKey], or the arrival of the stored data, that
    is the run of the callback the constructor registered on
    [chrome.storage.local.get()]. *)
Inductive Step : Type :=
| call_setKey (networkId accountId : string) (keyPair : KeyPair)
| call_removeKey (networkId accountId : string)
| stored_data_arrive.

(** An instance in its surroundings: [chrome.storage.local], and what
    the constructor's [get()] will hand to the callback as long as the
    callback has not run. *)
Record World : Type := mkWorld {
  instance : BrowserLocalStorageKeyStore;
  chrome : ChromeStorage;
  pending : option ChromeStorage
}.

(** [new BrowserLocalStorageKeyStore(localStorage, prefix)]: the
    dictionary is empty and the stored data are asked for; the request
    is served before the writes that are issued after it. *)
Definition construct (prefix : option string) (chrome : ChromeStorage)
  : World :=
  {| instance := new prefix; chrome := chrome; pending := Some chrome |}.

Definition step (w : World) (s : Step) : World :=
  match s with
  | call_setKey networkId accountId keyPair =>
      let '(this, c) :=
        setKey KeyPair_toString (instance w) (chrome w)
               networkId accountId keyPair in
      {| instance := this; chrome := c; pending := pending w |}
  | call_removeKey networkId accountId =>
      let '(this, c) :=
        removeKey (instance w) (chrome w) networkId accountId in
      {| instance := this; chrome := c; pending := pending w |}
  | stored_data_arrive =>
      match pending w with
      | Some result =>
          {| instance := on_storage_loaded result (instance w);
             chrome := chrome w;
             pending := None |}
      | None => w
      end
  end.

Definition run (w : World) (steps : list Step) : World :=
  fold_left step steps w.

(** The step is a call for the pair. *)
Definition touches (networkId accountId : string) (s : Step) : bool :=
  match s with
  | call_setKey n a _ | call_removeKey n a =>
      String.eqb n networkId && String.eqb a accountId
  | stored_data_arrive => false
  end.

(** What a call leaves for its pair: a key pair, or nothing. *)
Definition leaves (s : Step) : option KeyPair :=
  match s with
  | call_setKey _ _ keyPair => Some keyPair
  | call_removeKey _ _ | stored_data_arrive => None
  end.

(** The last call for the pair among the steps, if there is one, and
    what it leaves. *)
Fixpoint last_call (networkId accountId : string) (steps : list Step)
  : option (option KeyPair) :=
  match steps with
  | [] => None
  | s :: rest =>
      match last_call networkId accountId rest with
      | Some r => Some r
      | None =>
          if touches networkId accountId s then Some (leaves s) else None
      end
  end.

(** The account id of a call has no colon. *)
Definition colon_free (s : Step) : bool :=
  match s with
  | call_setKey _ a _ | call_removeKey _ a => negb (has_colon a)
  | stored_data_arrive => true
  end.

Definition is_call (s : Step) : bool :=
  match s with
  | stored_data_arrive => false
  | _ => true
  end.

End WithKeyPair.

Arguments call_setKey {KeyPair}.
Arguments call_removeKey {KeyPair}.
Arguments stored_data_arrive {KeyPair}.
Arguments step {KeyPair}.
Arguments run {KeyPair}.
Arguments touches {KeyPair}.
Arguments leaves {KeyPair}.
Arguments last_call {KeyPair}.
Arguments colon_free {KeyPair}.
Arguments is_call {KeyPair}.

End KeyStoreRun.

Module RetryModel.

Import NetworkClient Submitter.

Section WithNetwork.

Variable Net : Type.
Variable RawResult : Type.
Variable broadcastTransaction :
  Net -> list Byte.byte -> Net * (ErrorKind + list Byte.byte).
Variable getTransactionStatus :
  Net -> list Byte.byte -> string -> Net * option RawResult.

(** The next [attempts] broadcasts of the bytes, from the given state of
    the network on, are all answered by a transient failure. *)
Fixpoint all_transient (attempts : nat) (net : Net) (bytes : list Byte.byte)
  : bool :=
  match attempts with
  | O => true
  | S attempts' =>
      let '(net1, reply) := broadcastTransaction net bytes in
      match reply with
      | inr _ => false
      | inl kind =>
          match classify kind with
          | Transient => all_transient attempts' net1 bytes
          | AlreadyExists | Fatal => false
          end
      end
  end.

(** The network answers for a transaction as its ledger has it: a
    broadcast that it rejects as fatal has not landed, and the status
    of a transaction that is committed is its outcome. *)
Record answers_as_committed
    (ledger : Net -> list Byte.byte -> option RawResult)
    (stx : SignedTransaction) : Prop := mkAnswersAsCommitted {
  fatal_not_landed :
    forall net net1 kind,
      broadcastTransaction net (envelope stx) = (net1, inl kind) ->
      classify kind = Fatal ->
      ledger net1 (hash stx) = None;
  status_of_committed :
    forall net raw,
      ledger net (hash stx) = Some raw ->
      (getTransactionStatus net (hash stx) (senderId stx)).2 = Some raw
}.

End WithNetwork.

Arguments all_transient {Net}.
Arguments answers_as_committed {Net RawResult}.
Arguments fatal_not_landed {Net RawResult _ _ ledger stx}.
Arguments status_of_committed {Net RawResult _ _ ledger stx}.

End RetryModel.

Module RetryScenario.

Import NetworkClient NonceAllocator Submitter Scenario.

(** The scenario's transfer with nonce 6, signed. *)
Definition signed6 : SignedTransaction :=
  match sign_transfer 6 with
  | Some stx => stx
  | None => signed
  end.

(** The on-chain nonce of K stays 5. *)
Definition steady_query (net : nat) (k : Key) : ChainView := inr 5%N.

End RetryScenario.

(* ===================================================================== *)
(** * Properties *)
(* ===================================================================== *)

(** ** lib/utils/errors.js *)

Section ErrorsFacts.

Import Errors.

Lemma or_else_truthy (s d : string) : s <> "" -> JS.or_else (Some s) d = s.
Proof. destruct s; [congruence | reflexivity]. Qed.

(** C3, as amended: a TypedError built with a non-empty [type] argument
    carries exactly that type; when the argument is omitted or is the
    empty string the constructor falls back to ['UntypedError']. *)
Theorem TypedError_type_kept
    (message : option string) (ty : string) (context : option ErrorContext) :
  ty <> "" ->
  type (TypedError_new message (Some ty) context) = ty
  /\ type (TypedError_new message None context) = "UntypedError"
  /\ type (TypedError_new message (Some "") context) = "UntypedError".
Proof.
  intros Hty.
  split; [apply or_else_truthy; assumption | split; reflexivity].
Qed.

(** C3, as amended, for an error raised with the kind ["InvalidNonce"]. *)
Lemma TypedError_type_kept_witness :
  "InvalidNonce" <> ""
  /\ type (TypedError_new (Some "nonce too small") (Some "InvalidNonce") None)
     = "InvalidNonce"
  /\ type (TypedError_new (Some "nonce too small") None None) = "UntypedError"
  /\ type (TypedError_new (Some "nonce too small") (Some "") None)
     = "UntypedError".
Proof.
  split; [discriminate |].
  apply (TypedError_type_kept (Some "nonce too small") "InvalidNonce" None).
  discriminate.
Defined.

(** C3, as stated, fails: raised with the empty string as its kind, the
    error does not carry that kind but the generic ['UntypedError']. *)
Lemma TypedError_empty_type_relabelled :
  ~ (forall (message : option string) (ty : string) (context : option ErrorContext),
        type (TypedError_new message (Some ty) context) = ty).
Proof.
  intros H. specialize (H (Some "boom") "" None). discriminate H.
Qed.

End ErrorsFacts.

(** ** lib/utils/logging.js *)

Section LoggingFacts.

Import Logging.

Context {ExecutionError ServerError : Type}.
Variable parseRpcError : ExecutionError -> ServerError.
Variable errorToString : ServerError -> string.

Local Abbreviation flatLogs := (flatLogs parseRpcError).
Local Abbreviation flatLogs_of_node := (flatLogs_of_node parseRpcError).
Local Abbreviation printAll := (printTxOutcomeLogsAndFailures_with parseRpcError errorToString).

(** [reduce] appends what each node contributes, in the order of the
    array. *)
Lemma flatLogs_fold (l : list (ExecutionOutcomeWithId ExecutionError))
    (acc : list (FlatLog ServerError)) :
  fold_left (flatLogs_step parseRpcError) l acc
  = acc ++ flat_map flatLogs_of_node l.
Proof.
  revert acc. induction l as [|it l IH]; intros acc; simpl.
  - now rewrite app_nil_r.
  - rewrite IH. unfold Logging.flatLogs_of_node, flatLogs_step.
    destruct (negb _ || _); simpl.
    + now rewrite <- app_assoc.
    + reflexivity.
Qed.

Lemma flatLogs_nodes (o : FinalExecutionOutcome ExecutionError) :
  flatLogs o = flat_map flatLogs_of_node (nodes o).
Proof. unfold Logging.flatLogs. now rewrite flatLogs_fold. Qed.

Lemma flat_map_flat_map {A B C : Type} (f : A -> list B) (g : B -> list C)
    (l : list A) :
  flat_map g (flat_map f l) = flat_map (fun a => flat_map g (f a)) l.
Proof.
  induction l as [|a l IH]; simpl; [reflexivity |].
  now rewrite flat_map_app, IH.
Qed.

Lemma filter_flat_map {A B : Type} (p : B -> bool) (f : A -> list B)
    (l : list A) :
  List.filter p (flat_map f l) = flat_map (fun a => List.filter p (f a)) l.
Proof.
  induction l as [|a l IH]; simpl; [reflexivity |].
  now rewrite List.filter_app, IH.
Qed.

(** Past the early return, the output is the per-node reports, root
    first. *)
Lemma unsuppressed_by_node (contractId : string)
    (o : FinalExecutionOutcome ExecutionError) :
  printAll false contractId o
  = flat_map (node_report parseRpcError errorToString contractId) (nodes o).
Proof.
  unfold printTxOutcomeLogsAndFailures_with, node_report.
  now rewrite flatLogs_nodes, flat_map_flat_map.
Qed.

Lemma filter_warn_log_lines (prefix contractId : string) (ls : list string) :
  List.filter JS.is_warn (map (log_line prefix contractId) ls) = [].
Proof. induction ls; simpl; auto. Qed.

(** The warnings in a node's report are the node's failure, if any. *)
Lemma node_report_warnings (contractId : string)
    (it : ExecutionOutcomeWithId ExecutionError) :
  List.filter JS.is_warn (node_report parseRpcError errorToString contractId it)
  = node_failure_lines parseRpcError errorToString contractId it.
Proof.
  unfold node_report, node_failure_lines, Logging.flatLogs_of_node, flatLogs_step.
  destruct (status (outcome it)) as [tag | st]; simpl.
  - rewrite orb_false_r.
    destruct (negb _); simpl; [| reflexivity].
    rewrite app_nil_r, List.filter_app, filter_warn_log_lines. reflexivity.
  - destruct (Failure st) as [e|]; simpl.
    + rewrite orb_true_r. simpl.
      rewrite app_nil_r, List.filter_app, filter_warn_log_lines. reflexivity.
    + rewrite orb_false_r.
      destruct (negb _); simpl; [| reflexivity].
      rewrite app_nil_r, List.filter_app, filter_warn_log_lines. reflexivity.
Qed.

(** The logs kept in [flatLogs] are all the logs of all the nodes. *)
Lemma flatLogs_keeps_logs (o : FinalExecutionOutcome ExecutionError) :
  concat (map flat_logs (flatLogs o))
  = concat (map (fun it => logs (outcome it)) (nodes o)).
Proof.
  rewrite flatLogs_nodes.
  induction (nodes o) as [|it l IH]; simpl; [reflexivity |].
  rewrite map_app, concat_app, IH. f_equal.
  unfold Logging.flatLogs_of_node, flatLogs_step.
  destruct (logs (outcome it)) as [|x xs] eqn:E; simpl.
  - destruct (isFailure _); reflexivity.
  - now rewrite app_nil_r.
Qed.

(** The log lines are printed in the order of the logs, between the
    headers and the warnings. *)
Lemma log_lines_in_order (contractId : string) (fl : list (FlatLog ServerError)) :
  sublist (map (log_line JS.TAB contractId) (concat (map flat_logs fl)))
          (flat_map (report errorToString false contractId) fl).
Proof.
  induction fl as [|result fl IH]; cbn [map concat flat_map].
  - constructor.
  - rewrite map_app. unfold report at 1. cbn [printTxOutcomeLogs_with app].
    apply sublist_cons. rewrite <- app_assoc.
    apply sublist_app; [reflexivity |].
    apply sublist_inserts_l. exact IH.
Qed.

(** C1, as amended: with [SUPPRESS_LOGGING] set, as the module sets it,
    the operation returns at once and reports nothing, whatever the
    outcome holds.  The statements past that early return visit the root and
    then every receipt outcome in the order given, and warn once, in that
    order, for each node whose status is a Failure, with the error parsed
    from that node's status; in particular a failed receipt is reported
    whatever the status of the root. *)
Theorem failures_reported_unless_suppressed
    (contractId : string) (o : FinalExecutionOutcome ExecutionError) :
  printTxOutcomeLogsAndFailures parseRpcError errorToString contractId o = []
  /\ List.filter JS.is_warn (printAll false contractId o)
     = flat_map (node_failure_lines parseRpcError errorToString contractId)
                (nodes o)
  /\ (forall r st e,
        In r (receipts_outcome o) ->
        status (outcome r) = StatusObject st ->
        Failure st = Some e ->
        In (failure_line errorToString contractId (parseRpcError e))
           (printAll false contractId o)).
Proof.
  assert (Hw : List.filter JS.is_warn (printAll false contractId o)
               = flat_map (node_failure_lines parseRpcError errorToString contractId)
                          (nodes o)).
  { rewrite unsuppressed_by_node, filter_flat_map.
    apply flat_map_ext. intros it. apply node_report_warnings. }
  split; [reflexivity | split; [exact Hw |]].
  intros r st e Hr Hst He.
  assert (Hin : In (failure_line errorToString contractId (parseRpcError e))
                   (List.filter JS.is_warn (printAll false contractId o))).
  { rewrite Hw. apply in_flat_map. exists r. split.
    - right. exact Hr.
    - unfold node_failure_lines. rewrite Hst. simpl. rewrite He. now left. }
  apply List.filter_In in Hin. tauto.
Qed.

(** C2, as amended: with [SUPPRESS_LOGGING] set, as the module sets it,
    neither log-printing operation emits anything.  Past the early
    return, [printTxOutcomeLogs] prints one line per log in the order given, and
    [printTxOutcomeLogsAndFailures] prints the per-node reports of the
    root and then of each receipt outcome in the order given; the logs
    it hands to [printTxOutcomeLogs] are, taken together, the logs of the
    root followed by those of every receipt outcome, in that order, and
    their lines appear in the output in that order. *)
Theorem logs_printed_unless_suppressed
    (contractId : string) (o : FinalExecutionOutcome ExecutionError)
    (ls : list string) (prefix : string) :
  printTxOutcomeLogs contractId ls (Some prefix) = []
  /\ printTxOutcomeLogsAndFailures parseRpcError errorToString contractId o = []
  /\ printTxOutcomeLogs_with false contractId ls (Some prefix)
     = map (log_line prefix contractId) ls
  /\ printAll false contractId o
     = flat_map (fun result =>
                   receipt_line (receiptIds result)
                   :: map (log_line JS.TAB contractId) (flat_logs result)
                   ++ match failure result with
                      | Some f => [failure_line errorToString contractId f]
                      | None => []
                      end)
                (flatLogs o)
  /\ concat (map flat_logs (flatLogs o))
     = concat (map (fun it => logs (outcome it)) (nodes o))
  /\ sublist (map (log_line JS.TAB contractId)
                  (concat (map (fun it => logs (outcome it)) (nodes o))))
             (printAll false contractId o).
Proof.
  split; [reflexivity | split; [reflexivity | split; [reflexivity |]]].
  split; [reflexivity | split; [apply flatLogs_keeps_logs |]].
  rewrite <- flatLogs_keeps_logs. apply log_lines_in_order.
Qed.

End LoggingFacts.

(** C1, as amended, at the scenario outcome: with nothing suppressed the
    failed receipt is reported. *)
Lemma failures_reported_unless_suppressed_witness :
  In Logging.scenario_receipt (Logging.receipts_outcome Logging.scenario)
  /\ In (Logging.failure_line (fun e => e) "dex.near" "FunctionCallError")
        (Logging.printTxOutcomeLogsAndFailures_with
           (fun e => e) (fun e => e) false "dex.near" Logging.scenario).
Proof.
  split; [now left |].
  exact (proj2 (proj2 (failures_reported_unless_suppressed
                         (fun e : string => e) (fun e : string => e)
                         "dex.near" Logging.scenario))
           Logging.scenario_receipt _ "FunctionCallError"
           (or_introl eq_refl) eq_refl eq_refl).
Defined.

(** C1, as stated, fails: the root is a Success, the receipt is a
    Failure, and the operation reports nothing at all, so the receipt's
    error is not reported. *)
Lemma failed_receipt_not_reported :
  Logging.isFailure (Logging.status (Logging.outcome Logging.scenario_root)) = false
  /\ Logging.isFailure (Logging.status (Logging.outcome Logging.scenario_receipt)) = true
  /\ ~ In (Logging.failure_line (fun e => e) "dex.near" "FunctionCallError")
          (Logging.printTxOutcomeLogsAndFailures
             (fun e => e) (fun e => e) "dex.near" Logging.scenario).
Proof.
  split; [reflexivity | split; [reflexivity |]].
  intros H. exact H.
Qed.

(** C2, as stated, fails: the two nodes of the scenario carry a log
    each, and the lines emitted are not those logs under any rendering,
    because nothing is emitted. *)
Lemma logs_not_emitted :
  concat (map (fun it => Logging.logs (Logging.outcome it))
              (Logging.nodes Logging.scenario))
  = ["transfer accepted"; "calling method"]
  /\ ~ (exists render : string -> JS.ConsoleCall,
          Logging.printTxOutcomeLogsAndFailures
            (fun e => e) (fun e => e) "dex.near" Logging.scenario
          = map render
                (concat (map (fun it => Logging.logs (Logging.outcome it))
                             (Logging.nodes Logging.scenario))))
  /\ ~ (exists render : string -> JS.ConsoleCall,
          Logging.printTxOutcomeLogs "dex.near"
            (Logging.logs (Logging.outcome Logging.scenario_root)) None
          = map render (Logging.logs (Logging.outcome Logging.scenario_root))).
Proof.
  split; [reflexivity | split]; intros [render H]; discriminate H.
Qed.

(** ** src/key_stores/browser_local_storage_key_store.ts *)

Section KeyStoreFacts.

Import KeyStore.

Context {KeyPair : Type}.
Variable KeyPair_toString : KeyPair -> string.
Variable KeyPair_fromString : string -> string + KeyPair.

Local Abbreviation setKey := (setKey KeyPair_toString).
Local Abbreviation getKey := (getKey KeyPair_fromString).

Lemma truthy_Some (s : string) : s <> "" -> JS.truthy (Some s) = true.
Proof. destruct s; [congruence | reflexivity]. Qed.

(** [getKey] on a dictionary without the entry answers [null]. *)
Lemma getKey_absent (this : BrowserLocalStorageKeyStore)
    (networkId accountId : string) :
  localStorage this !! storageKeyForSecretKey this networkId accountId = None ->
  getKey this networkId accountId = inr None.
Proof. intros H. unfold KeyStore.getKey. now rewrite H. Qed.

(** [setKey] and [removeKey] leave [prefix], hence every storage key,
    as it was. *)
Lemma storageKey_setKey this chrome n a kp n' a' :
  storageKeyForSecretKey (setKey this chrome n a kp).1 n' a'
  = storageKeyForSecretKey this n' a'.
Proof. reflexivity. Qed.

(** The callback of the constructor replaces the dictionary: what was
    stored on the instance before the stored data arrive is not read back
    once they have. *)
Remark storage_loaded_replaces
    (this : BrowserLocalStorageKeyStore) (chrome result : ChromeStorage)
    (networkId accountId : string) (kp : KeyPair) :
  getKey (on_storage_loaded result (setKey this chrome networkId accountId kp).1)
         networkId accountId
  = getKey (on_storage_loaded result this) networkId accountId.
Proof. reflexivity. Qed.

(** A loop over a generator that yields nothing leaves its state as it
    found it, and cannot throw. *)
Lemma for_of_nothing {Y R S : Type} (g : Generator Y R) (body : S -> Y -> S)
    (s : S) :
  yielded g = [] -> for_of g body s = s.
Proof. intros H. unfold for_of. now rewrite H. Qed.

Lemma for_of_try_nothing {Y R S E : Type} (g : Generator Y R)
    (body : S -> Y -> E + S) (s : S) :
  yielded g = [] -> for_of_try g body s = inr s.
Proof. intros H. unfold for_of_try. now rewrite H. Qed.

(** C9: whatever the dictionary holds, [storageKeys] returns the values
    without yielding any, so iterating it visits nothing: [getNetworks]
    and [getAccounts] answer the empty list and [clear] completes and
    leaves the instance, hence every stored entry, as it was. *)
Theorem storageKeys_yields_nothing
    (this : BrowserLocalStorageKeyStore) (networkId : string) :
  yielded (storageKeys this) = []
  /\ returned (storageKeys this) = Object_values (localStorage this)
  /\ getNetworks this = []
  /\ getAccounts this networkId = []
  /\ clear this = inr this.
Proof.
  assert (Hy : yielded (storageKeys this) = []) by reflexivity.
  split; [exact Hy | split; [reflexivity |]].
  split; [apply for_of_nothing, Hy |].
  split; [apply for_of_nothing, Hy | apply for_of_try_nothing, Hy].
Qed.

End KeyStoreFacts.

(** ** The Connection class *)

Section ConnectionFacts.

Import Connection.

Context {Members KeyStore : Type}.
Variable inspect : option KeyStore -> string.

Local Abbreviation getSigner := (getSigner inspect).
Local Abbreviation fromConfig := (fromConfig inspect).

Lemma getProvider_cases (config : ConfigObject Members KeyStore) :
  (type config = type_undefined ->
   getProvider config = inr (provider_as_is config))
  /\ (type config = type_string "JsonRpcProvider" ->
      getProvider config
      = inr (new_JsonRpcProvider (Object_assign_empty (args config))))
  /\ (type config <> type_undefined ->
      type config <> type_string "JsonRpcProvider" ->
      getProvider config
      = inl (Error ("Unknown provider type " +:+ render (type config)))).
Proof.
  unfold Connection.getProvider.
  destruct (type config) as [| s | r] eqn:E;
    repeat split; try congruence; intros.
  - inversion H; subst. reflexivity.
  - destruct (String.eqb_spec s "JsonRpcProvider"); [congruence | reflexivity].
Qed.

Lemma getSigner_cases (config : ConfigObject Members KeyStore) :
  (type config = type_undefined ->
   (getSigner config).2 = inr (signer_as_is config))
  /\ (type config = type_string "InMemorySigner" ->
      (getSigner config).2 = inr (new_InMemorySigner (keyStore config)))
  /\ (type config <> type_undefined ->
      type config <> type_string "InMemorySigner" ->
      (getSigner config).2
      = inl (Error ("Unknown signer type " +:+ render (type config)))).
Proof.
  unfold Connection.getSigner.
  destruct (type config) as [| s | r] eqn:E;
    repeat split; try congruence; intros.
  - inversion H; subst. reflexivity.
  - destruct (String.eqb_spec s "InMemorySigner"); [congruence | reflexivity].
Qed.

(** [fromConfig] returns a connection exactly when both helpers return,
    and then with their results and the two identifiers of the config. *)
Lemma fromConfig_inr (config : Config Members KeyStore) p s :
  getProvider (config_provider config) = inr p ->
  (getSigner (config_signer config)).2 = inr s ->
  (fromConfig config).2
  = inr {| networkId := config_networkId config;
           provider := p;
           signer := s;
           jsvmAccountId := config_jsvmAccountId config |}.
Proof.
  intros Hp Hs. unfold Connection.fromConfig. rewrite Hp.
  destruct (Connection.getSigner inspect (config_signer config)) as [out [e|s']];
    simpl in *; congruence.
Qed.

Lemma fromConfig_inl_provider (config : Config Members KeyStore) e :
  getProvider (config_provider config) = inl e ->
  fromConfig config = ([], inl e).
Proof. intros Hp. unfold Connection.fromConfig. now rewrite Hp. Qed.

Lemma fromConfig_inl_signer (config : Config Members KeyStore) p e :
  getProvider (config_provider config) = inr p ->
  (getSigner (config_signer config)).2 = inl e ->
  (fromConfig config).2 = inl e.
Proof.
  intros Hp Hs. unfold Connection.fromConfig. rewrite Hp.
  destruct (Connection.getSigner inspect (config_signer config)) as [out [e'|s']];
    simpl in *; congruence.
Qed.

(** C10: [getProvider] uses a config whose [type] is undefined as it
    is, builds a [JsonRpcProvider] from a copy of [args] when [type] is
    ['JsonRpcProvider'], and throws an [Error] for any other [type];
    [getSigner] does the same with ['InMemorySigner'] and [keyStore];
    [fromConfig] throws when either does, and otherwise returns a
    connection made of their results whose [networkId] and
    [jsvmAccountId] are those of the config. *)
Theorem fromConfig_spec (config : Config Members KeyStore) :
  let pc := config_provider config in
  let sc := config_signer config in
  (type pc = type_undefined -> getProvider pc = inr (provider_as_is pc))
  /\ (type pc = type_string "JsonRpcProvider" ->
      getProvider pc
      = inr (new_JsonRpcProvider (Object_assign_empty (args pc))))
  /\ (type sc = type_undefined -> (getSigner sc).2 = inr (signer_as_is sc))
  /\ (type sc = type_string "InMemorySigner" ->
      (getSigner sc).2 = inr (new_InMemorySigner (keyStore sc)))
  /\ (type pc <> type_undefined ->
      type pc <> type_string "JsonRpcProvider" ->
      fromConfig config
      = ([], inl (Error ("Unknown provider type " +:+ render (type pc)))))
  /\ (type sc <> type_undefined ->
      type sc <> type_string "InMemorySigner" ->
      exists e, (fromConfig config).2 = inl e)
  /\ (forall conn,
        (fromConfig config).2 = inr conn ->
        networkId conn = config_networkId config
        /\ jsvmAccountId conn = config_jsvmAccountId config
        /\ getProvider pc = inr (provider conn)
        /\ (getSigner sc).2 = inr (signer conn))
  /\ ((type pc = type_undefined \/ type pc = type_string "JsonRpcProvider") ->
      (type sc = type_undefined \/ type sc = type_string "InMemorySigner") ->
      exists conn, (fromConfig config).2 = inr conn).
Proof.
  intros pc sc.
  destruct (getProvider_cases pc) as (Hp1 & Hp2 & Hp3).
  destruct (getSigner_cases sc) as (Hs1 & Hs2 & Hs3).
  repeat match goal with |- _ /\ _ => split end; try assumption.
  - intros H1 H2. apply fromConfig_inl_provider. now apply Hp3.
  - intros H1 H2. specialize (Hs3 H1 H2).
    destruct (getProvider pc) as [e | p] eqn:Ep.
    + exists e. subst pc. now rewrite (fromConfig_inl_provider _ _ Ep).
    + eexists. subst pc sc. eapply fromConfig_inl_signer; eassumption.
  - intros conn Hconn.
    destruct (getProvider pc) as [e | p] eqn:Ep.
    + subst pc. rewrite (fromConfig_inl_provider _ _ Ep) in Hconn. discriminate.
    + destruct (getSigner sc).2 as [e | s] eqn:Es.
      * subst pc sc. rewrite (fromConfig_inl_signer _ _ _ Ep Es) in Hconn.
        discriminate.
      * subst pc sc. rewrite (fromConfig_inr _ _ _ Ep Es) in Hconn.
        inversion Hconn; subst; cbn. auto.
  - intros Hp Hs.
    assert (exists p, getProvider pc = inr p) as [p Ep]
      by (destruct Hp as [H|H]; eauto).
    assert (exists s, (getSigner sc).2 = inr s) as [s Es]
      by (destruct Hs as [H|H]; eauto).
    eexists. subst pc sc. eapply fromConfig_inr; eassumption.
Qed.

End ConnectionFacts.

(** ** NonceAllocator (specification, component design) *)

Section NonceAllocatorFacts.

Import NetworkClient NonceAllocator.

Implicit Types (cache : gmap (string * string) N) (k : Key) (calls : list Call).

Lemma nonces_after_S (base : N) (n : nat) :
  nonces_after base (S n) = (base + 1)%N :: nonces_after (base + 1) n.
Proof.
  unfold nonces_after. cbn [seq map]. f_equal.
  rewrite <- seq_shift, map_map. apply map_ext. intros i. lia.
Qed.

Lemma nonces_after_bounds (base : N) (n : nat) (x : N) :
  In x (nonces_after base n) -> (base < x)%N.
Proof.
  unfold nonces_after. rewrite in_map_iff. intros (i & <- & Hi).
  apply in_seq in Hi. lia.
Qed.

Lemma nonces_after_NoDup (base : N) (n : nat) :
  List.NoDup (nonces_after base n).
Proof.
  revert base. induction n as [|n IH]; intros base.
  - constructor.
  - rewrite nonces_after_S. constructor; [| apply IH].
    intros Hin. apply nonces_after_bounds in Hin. lia.
Qed.

(** A call for another key leaves the entry of [k] alone. *)
Lemma reserve_other cache k k' chain :
  k' <> k -> (reserve cache k' chain).1 !! k = cache !! k.
Proof.
  intros Hne. unfold reserve.
  destruct (cache !! k') as [c|]; [| destruct chain as [e|n]]; cbn;
    try reflexivity; now rewrite lookup_insert_ne.
Qed.

(** A hit increments and answers without looking at the chain. *)
Lemma reserve_hit cache k chain (cached : N) :
  cache !! k = Some cached ->
  reserve cache k chain = (<[k := (cached + 1)%N]> cache, inr (cached + 1)%N).
Proof. intros H. unfold reserve. now rewrite H. Qed.

Lemma run_cons cache (c : Call) calls :
  (run cache (c :: calls)).2
  = (call_key c, (reserve cache (call_key c) (call_chain c)).2)
      :: (run (reserve cache (call_key c) (call_chain c)).1 calls).2.
Proof.
  cbn [run]. destruct (reserve cache (call_key c) (call_chain c)) as [c1 r].
  cbn [fst snd]. destruct (run c1 calls) as [c2 rs]. reflexivity.
Qed.

(** Once the key is cached, its callers get the successors of the cached
    value, one after the other. *)
Lemma run_hit calls : forall cache k (cached : N),
  cache !! k = Some cached ->
  returned_for k (run cache calls).2
  = map inr (nonces_after cached (length (calls_for k calls))).
Proof.
  induction calls as [|c calls IH]; intros cache k cached Hk.
  - reflexivity.
  - rewrite run_cons. unfold returned_for, calls_for in *.
    destruct (decide (call_key c = k)) as [Hc | Hne].
    + rewrite !filter_cons_True by assumption. rewrite Hc.
      rewrite (reserve_hit _ _ _ _ Hk). cbn [fst snd map length].
      rewrite nonces_after_S. cbn [map]. f_equal.
      apply IH. apply lookup_insert_eq.
    + rewrite !filter_cons_False by assumption.
      apply IH. now rewrite reserve_other.
Qed.

(** C4: take any run of reservation calls, for any keys, serialized in
    any order.  If the key [k] is not cached at the start and the first
    call for [k] finds the on-chain nonce [base], then the calls for [k]
    are answered, in order, [base+1, ..., base+N], where [N] is their
    number: no value is answered twice and none is skipped.  A call that
    finds the key cached answers [cached + 1] whatever the chain says at
    that time. *)
Theorem reserve_run_exact calls : forall cache k (base : N)
    (first : Call) (others : list Call),
  cache !! k = None ->
  calls_for k calls = first :: others ->
  call_chain first = inr base ->
  returned_for k (run cache calls).2
  = map inr (nonces_after base (length (calls_for k calls)))
  /\ List.NoDup (returned_for k (run cache calls).2)
  /\ (forall cache' (cached : N) chain chain',
        cache' !! k = Some cached ->
        reserve cache' k chain = reserve cache' k chain'
        /\ (reserve cache' k chain).2 = inr (cached + 1)%N).
Proof.
  intros cache k base first others Hmiss Hfirst Hbase.
  assert (Heq : returned_for k (run cache calls).2
                = map inr (nonces_after base (length (calls_for k calls)))).
  { revert cache Hmiss Hfirst.
    induction calls as [|c calls IH]; intros cache Hmiss Hfirst.
    - discriminate Hfirst.
    - rewrite run_cons. unfold returned_for, calls_for in *.
      destruct (decide (call_key c = k)) as [Hc | Hne].
      + rewrite filter_cons_True in Hfirst by assumption.
        rewrite !filter_cons_True by assumption.
        injection Hfirst as -> Hrest. rewrite Hc.
        unfold reserve at 1 2. rewrite Hmiss, Hbase.
        cbn [fst snd map length]. rewrite nonces_after_S. cbn [map]. f_equal.
        apply (run_hit calls _ k (base + 1)%N).
        apply lookup_insert_eq.
      + rewrite filter_cons_False in Hfirst by assumption.
        rewrite !filter_cons_False by assumption.
        apply IH; [| assumption]. now rewrite reserve_other. }
  split; [exact Heq | split].
  - rewrite Heq. apply Finite.Injective_map_NoDup.
    + intros x y H. now injection H.
    + apply nonces_after_NoDup.
  - intros cache' cached chain chain' Hhit.
    rewrite !(reserve_hit _ _ _ _ Hhit). split; reflexivity.
Qed.

End NonceAllocatorFacts.

(** ** TransactionEncoder (specification, component design) *)

Section TransactionEncoderFacts.

Import TransactionEncoder.

Lemma byte_of_N_value (n : N) : Byte.to_N (byte_of_N n) = (n mod 256)%N.
Proof.
  unfold byte_of_N.
  destruct (Byte.of_N (n mod 256)) as [b|] eqn:E.
  - now apply Byte.to_of_N.
  - apply Byte.of_N_None_iff in E.
    pose proof (N.mod_upper_bound n 256). lia.
Qed.

Lemma le_bytes_length (w : nat) (n : N) : length (le_bytes w n) = w.
Proof. revert n. induction w; intros n; simpl; auto. Qed.

Lemma le_value_le_bytes (w : nat) (n : N) :
  (n < 2 ^ (8 * N.of_nat w))%N -> le_value (le_bytes w n) = n.
Proof.
  revert n. induction w as [|w IH]; intros n Hn.
  - simpl in *. lia.
  - cbn [le_bytes le_value]. rewrite byte_of_N_value, IH.
    + pose proof (N.div_mod' n 256). lia.
    + replace (8 * N.of_nat (S w))%N with (8 + 8 * N.of_nat w)%N in Hn by lia.
      rewrite N.pow_add_r in Hn. change (2 ^ 8)%N with 256%N in Hn.
      apply N.Div0.div_lt_upper_bound. lia.
Qed.

Lemma encode_uint_Some (w : nat) (n : N) (b : bytes) :
  encode_uint w n = Some b ->
  b = le_bytes w n /\ (n < 2 ^ (8 * N.of_nat w))%N.
Proof.
  unfold encode_uint. destruct (N.ltb_spec n (2 ^ (8 * N.of_nat w))%N).
  - intros [= <-]. auto.
  - discriminate.
Qed.

Lemma encode_uint_self_delimiting (w : nat) : self_delimiting (encode_uint w).
Proof.
  intros n n' b b' r r' Hb Hb' Heq.
  apply encode_uint_Some in Hb as [-> Hn].
  apply encode_uint_Some in Hb' as [-> Hn'].
  apply app_inj_1 in Heq as [Hbytes Hr];
    [| now rewrite !le_bytes_length].
  split; [| exact Hr].
  rewrite <- (le_value_le_bytes w n), <- (le_value_le_bytes w n') by assumption.
  now rewrite Hbytes.
Qed.

Lemma encode_bytes_self_delimiting : self_delimiting encode_bytes.
Proof.
  intros x x' b b' r r' Hb Hb' Heq. unfold encode_bytes in *.
  destruct (encode_uint LENGTH_WIDTH (N.of_nat (length x))) as [l|] eqn:El;
    [| discriminate].
  destruct (encode_uint LENGTH_WIDTH (N.of_nat (length x'))) as [l'|] eqn:El';
    [| discriminate].
  cbn in Hb, Hb'. injection Hb as <-. injection Hb' as <-.
  rewrite <- !app_assoc in Heq.
  destruct (encode_uint_self_delimiting _ _ _ _ _ _ _ El El' Heq) as [Hlen Hrest].
  apply Nat2N.inj in Hlen.
  apply app_inj_1 in Hrest; [exact Hrest | exact Hlen].
Qed.

Lemma list_byte_of_string_inj (s s' : string) :
  list_byte_of_string s = list_byte_of_string s' -> s = s'.
Proof.
  intros H. rewrite <- (string_of_list_byte_of_string s),
    <- (string_of_list_byte_of_string s'). now rewrite H.
Qed.

Lemma encode_string_self_delimiting : self_delimiting encode_string.
Proof.
  intros s s' b b' r r' Hb Hb' Heq. unfold encode_string in *.
  destruct (encode_bytes_self_delimiting _ _ _ _ _ _ Hb Hb' Heq) as [H Hr].
  split; [now apply list_byte_of_string_inj | exact Hr].
Qed.

Lemma encode_field_self_delimiting (t : FieldType) :
  self_delimiting (encode_field t).
Proof.
  intros f f' b b' r r' Hb Hb' Heq.
  destruct t, f; try discriminate Hb; destruct f'; try discriminate Hb';
    cbn in Hb, Hb'.
  - destruct (encode_uint_self_delimiting _ _ _ _ _ _ _ Hb Hb' Heq); split; congruence.
  - destruct (encode_uint_self_delimiting _ _ _ _ _ _ _ Hb Hb' Heq); split; congruence.
  - destruct (encode_bytes_self_delimiting _ _ _ _ _ _ Hb Hb' Heq); split; congruence.
Qed.

(** Two encoders run one after the other. *)
Lemma bind_Some {A B : Type} (m : option A) (f : A -> option B) (y : B) :
  m ≫= f = Some y -> exists x, m = Some x /\ f x = Some y.
Proof. destruct m as [x|]; [eauto | discriminate]. Qed.

Lemma encode_fields_self_delimiting (ts : list FieldType) :
  self_delimiting (encode_fields ts).
Proof.
  induction ts as [|t ts IH]; intros fs fs' b b' r r' Hb Hb' Heq.
  - destruct fs; [| discriminate]. destruct fs'; [| discriminate].
    injection Hb as <-. injection Hb' as <-. auto.
  - destruct fs as [|f fs]; [discriminate |].
    destruct fs' as [|f' fs']; [discriminate |].
    cbn [encode_fields] in Hb, Hb'.
    apply bind_Some in Hb as (x & Hx & Hb). apply bind_Some in Hb as (xs & Hxs & Hb).
    apply bind_Some in Hb' as (x' & Hx' & Hb'). apply bind_Some in Hb' as (xs' & Hxs' & Hb').
    injection Hb as <-. injection Hb' as <-.
    rewrite <- !app_assoc in Heq.
    destruct (encode_field_self_delimiting t _ _ _ _ _ _ Hx Hx' Heq) as [-> Heq'].
    destruct (IH _ _ _ _ _ _ Hxs Hxs' Heq') as [-> Hr]. auto.
Qed.

Variable schema : ActionKind -> list FieldType.
Variable discriminant : ActionKind -> Byte.byte.
Hypothesis discriminant_inj :
  forall k k', discriminant k = discriminant k' -> k = k'.

Lemma encode_action_self_delimiting :
  self_delimiting (encode_action schema discriminant).
Proof.
  intros [k fs] [k' fs'] b b' r r' Hb Hb' Heq. unfold encode_action in *.
  cbn [kind fields] in *.
  apply bind_Some in Hb as (x & Hx & Hb). apply bind_Some in Hb' as (x' & Hx' & Hb').
  injection Hb as <-. injection Hb' as <-.
  cbn in Heq. injection Heq as Hd Heq.
  apply discriminant_inj in Hd as <-.
  destruct (encode_fields_self_delimiting _ _ _ _ _ _ _ Hx Hx' Heq) as [-> Hr].
  auto.
Qed.

Lemma encode_action_seq_self_delimiting (l : list Action) : forall l' b b' r r',
  length l = length l' ->
  encode_action_seq schema discriminant l = Some b ->
  encode_action_seq schema discriminant l' = Some b' ->
  b ++ r = b' ++ r' ->
  l = l' /\ r = r'.
Proof.
  induction l as [|a l IH]; intros [|a' l'] b b' r r' Hlen Hb Hb' Heq;
    try discriminate Hlen.
  - injection Hb as <-. injection Hb' as <-. auto.
  - cbn [encode_action_seq] in Hb, Hb'.
    apply bind_Some in Hb as (x & Hx & Hb). apply bind_Some in Hb as (xs & Hxs & Hb).
    apply bind_Some in Hb' as (x' & Hx' & Hb'). apply bind_Some in Hb' as (xs' & Hxs' & Hb').
    injection Hb as <-. injection Hb' as <-.
    rewrite <- !app_assoc in Heq.
    destruct (encode_action_self_delimiting _ _ _ _ _ _ Hx Hx' Heq) as [-> Heq'].
    injection Hlen as Hlen.
    destruct (IH _ _ _ _ _ Hlen Hxs Hxs' Heq') as [-> Hr]. auto.
Qed.

Lemma encode_actions_self_delimiting :
  self_delimiting (encode_actions schema discriminant).
Proof.
  intros l l' b b' r r' Hb Hb' Heq. unfold encode_actions in *.
  apply bind_Some in Hb as (c & Hc & Hb). apply bind_Some in Hb as (xs & Hxs & Hb).
  apply bind_Some in Hb' as (c' & Hc' & Hb'). apply bind_Some in Hb' as (xs' & Hxs' & Hb').
  injection Hb as <-. injection Hb' as <-.
  rewrite <- !app_assoc in Heq.
  destruct (encode_uint_self_delimiting _ _ _ _ _ _ _ Hc Hc' Heq) as [Hlen Heq'].
  apply Nat2N.inj in Hlen.
  exact (encode_action_seq_self_delimiting _ _ _ _ _ _ Hlen Hxs Hxs' Heq').
Qed.

Lemma encode_self_delimiting : self_delimiting (encode schema discriminant).
Proof.
  intros [s pk n rc h acts] [s' pk' n' rc' h' acts'] b b' r r' Hb Hb' Heq.
  unfold encode in *. cbn [signerId publicKey nonce receiverId blockHash actions] in *.
  apply bind_Some in Hb as (e1 & H1 & Hb). apply bind_Some in Hb as (e2 & H2 & Hb).
  apply bind_Some in Hb as (e3 & H3 & Hb). apply bind_Some in Hb as (e4 & H4 & Hb).
  apply bind_Some in Hb as (e5 & H5 & Hb). apply bind_Some in Hb as (e6 & H6 & Hb).
  apply bind_Some in Hb' as (f1 & G1 & Hb'). apply bind_Some in Hb' as (f2 & G2 & Hb').
  apply bind_Some in Hb' as (f3 & G3 & Hb'). apply bind_Some in Hb' as (f4 & G4 & Hb').
  apply bind_Some in Hb' as (f5 & G5 & Hb'). apply bind_Some in Hb' as (f6 & G6 & Hb').
  injection Hb as <-. injection Hb' as <-.
  rewrite <- !app_assoc in Heq.
  destruct (encode_string_self_delimiting _ _ _ _ _ _ H1 G1 Heq) as [-> Heq1].
  destruct (encode_bytes_self_delimiting _ _ _ _ _ _ H2 G2 Heq1) as [-> Heq2].
  destruct (encode_uint_self_delimiting _ _ _ _ _ _ _ H3 G3 Heq2) as [-> Heq3].
  destruct (encode_string_self_delimiting _ _ _ _ _ _ H4 G4 Heq3) as [-> Heq4].
  destruct (encode_bytes_self_delimiting _ _ _ _ _ _ H5 G5 Heq4) as [-> Heq5].
  destruct (encode_actions_self_delimiting _ _ _ _ _ _ H6 G6 Heq5) as [-> Hr].
  auto.
Qed.

(** C7: [encode] is a function of the transaction alone, so repeated
    calls on the same transaction agree; and, the discriminant bytes of
    the variants being pairwise distinct, a transaction that can be
    encoded and a transaction that differs from it, be it in a single
    field, never have the same encoding: the other one gives other bytes
    or is refused. *)
Theorem encode_deterministic_injective (tx tx' : Transaction) :
  encode schema discriminant tx = encode schema discriminant tx
  /\ (tx <> tx' ->
      is_Some (encode schema discriminant tx) ->
      encode schema discriminant tx <> encode schema discriminant tx').
Proof.
  split; [reflexivity |].
  intros Hne [b Hb] Heq. rewrite Hb in Heq. symmetry in Heq.
  apply Hne.
  exact (proj1 (encode_self_delimiting tx tx' b b [] [] Hb Heq eq_refl)).
Qed.

End TransactionEncoderFacts.

(** ** Submitter (specification, component design) *)

Section SubmitterFacts.

Import NetworkClient Submitter.

Context {Net RawResult : Type}.
Variable broadcastTransaction :
  Net -> list Byte.byte -> Net * (ErrorKind + list Byte.byte).
Variable getTransactionStatus :
  Net -> list Byte.byte -> string -> Net * option RawResult.

Local Abbreviation poll := (poll getTransactionStatus).
Local Abbreviation broadcast := (broadcast broadcastTransaction getTransactionStatus).
Local Abbreviation submit := (submit broadcastTransaction getTransactionStatus).

(** Polling asks for the hash of the transaction and nothing else. *)
Lemma poll_events (stx : SignedTransaction) (deadline : nat) : forall net,
  Forall (event_of_submission stx) (poll deadline net stx).1.2.
Proof.
  induction deadline as [|d IH]; intros net; cbn [Submitter.poll].
  - constructor.
  - destruct (getTransactionStatus net (hash stx) (senderId stx)) as [net1 [raw|]].
    + cbn. repeat constructor.
    + specialize (IH net1). destruct (Submitter.poll _ d net1 stx) as [[net2 tr] res].
      cbn in *. constructor; [split; reflexivity | exact IH].
Qed.

(** Every broadcast of a submission carries the bytes it was given;
    nothing is signed and no nonce is looked up along the way. *)
Lemma broadcast_events (stx : SignedTransaction) (deadline attemptsLeft : nat) :
  forall attempt net,
  Forall (event_of_submission stx)
         (broadcast attemptsLeft attempt deadline net stx).1.2.
Proof.
  induction attemptsLeft as [|n IH]; intros attempt net; cbn [Submitter.broadcast].
  - constructor.
  - destruct (broadcastTransaction net (envelope stx)) as [net1 [kind | h]].
    + destruct (classify kind).
      * specialize (IH (S attempt) net1).
        destruct (Submitter.broadcast _ _ n (S attempt) deadline net1 stx)
          as [[net2 tr] res].
        cbn in *. repeat constructor. exact IH.
      * pose proof (poll_events stx deadline net1) as Hp.
        destruct (Submitter.poll _ deadline net1 stx) as [[net2 tr] res].
        cbn in *. constructor; [reflexivity | exact Hp].
      * cbn. repeat constructor.
    + pose proof (poll_events stx deadline net1) as Hp.
      destruct (Submitter.poll _ deadline net1 stx) as [[net2 tr] res].
      cbn in *. constructor; [reflexivity | exact Hp].
Qed.

(** After a transient failure, with attempts left, the next thing sent
    is the same byte string. *)
Lemma retry_sends_same_bytes (stx : SignedTransaction) (deadline more : nat)
    (net net1 : Net) (kind : ErrorKind) :
  broadcastTransaction net (envelope stx) = (net1, inl kind) ->
  classify kind = Transient ->
  exists rest,
    (submit (S (S more)) deadline net stx).1.2
    = Broadcast (envelope stx) :: Backoff 0 :: Broadcast (envelope stx) :: rest.
Proof.
  intros Hreply Hclass. unfold Submitter.submit.
  cbn [Submitter.broadcast]. rewrite Hreply, Hclass.
  destruct (broadcastTransaction net1 (envelope stx)) as [net2 [kind2 | h]].
  - destruct (classify kind2).
    + destruct (Submitter.broadcast _ _ more 2 deadline net2 stx)
        as [[net3 tr] res]. cbn. eauto.
    + destruct (Submitter.poll _ deadline net2 stx) as [[net3 tr] res].
      cbn. eauto.
    + cbn. eauto.
  - destruct (Submitter.poll _ deadline net2 stx) as [[net3 tr] res].
    cbn. eauto.
Qed.

Section CommitsOnce.

Variable ledger : Net -> list Byte.byte -> option RawResult.
Hypothesis network_commits_once :
  commits_once broadcastTransaction getTransactionStatus ledger.

(** A terminal result of polling is the committed outcome, and stays
    committed. *)
Lemma poll_committed (stx : SignedTransaction) (deadline : nat) :
  forall net raw,
  (poll deadline net stx).2 = Final raw ->
  ledger (poll deadline net stx).1.1 (hash stx) = Some raw.
Proof.
  induction deadline as [|d IH]; intros net raw; cbn [Submitter.poll].
  - discriminate.
  - destruct (getTransactionStatus net (hash stx) (senderId stx))
      as [net1 [raw1|]] eqn:E.
    + cbn. intros [= <-].
      eapply status_is_committed; eassumption.
    + specialize (IH net1 raw).
      destruct (Submitter.poll _ d net1 stx) as [[net2 tr] res]. exact IH.
Qed.

Lemma poll_keeps (stx : SignedTransaction) (deadline : nat) :
  forall net h raw,
  ledger net h = Some raw ->
  ledger (poll deadline net stx).1.1 h = Some raw.
Proof.
  induction deadline as [|d IH]; intros net h raw Hl; cbn [Submitter.poll].
  - exact Hl.
  - pose proof (status_keeps network_commits_once
                  net (hash stx) (senderId stx) h raw Hl) as Hk.
    destruct (getTransactionStatus net (hash stx) (senderId stx))
      as [net1 [raw1|]].
    + exact Hk.
    + specialize (IH net1 h raw Hk).
      destruct (Submitter.poll _ d net1 stx) as [[net2 tr] res]. exact IH.
Qed.

Lemma broadcast_committed (stx : SignedTransaction) (deadline attemptsLeft : nat) :
  forall attempt net raw,
  (broadcast attemptsLeft attempt deadline net stx).2 = Final raw ->
  ledger (broadcast attemptsLeft attempt deadline net stx).1.1 (hash stx)
  = Some raw.
Proof.
  induction attemptsLeft as [|n IH]; intros attempt net raw;
    cbn [Submitter.broadcast].
  - discriminate.
  - destruct (broadcastTransaction net (envelope stx)) as [net1 [kind | h]].
    + destruct (classify kind).
      * specialize (IH (S attempt) net1 raw).
        destruct (Submitter.broadcast _ _ n (S attempt) deadline net1 stx)
          as [[net2 tr] res]. exact IH.
      * pose proof (poll_committed stx deadline net1 raw) as Hp.
        destruct (Submitter.poll _ deadline net1 stx) as [[net2 tr] res].
        exact Hp.
      * discriminate.
    + pose proof (poll_committed stx deadline net1 raw) as Hp.
      destruct (Submitter.poll _ deadline net1 stx) as [[net2 tr] res].
      exact Hp.
Qed.

Lemma broadcast_keeps_committed (stx : SignedTransaction)
    (deadline attemptsLeft : nat) :
  forall attempt net h raw,
  ledger net h = Some raw ->
  ledger (broadcast attemptsLeft attempt deadline net stx).1.1 h = Some raw.
Proof.
  induction attemptsLeft as [|n IH]; intros attempt net h raw Hl;
    cbn [Submitter.broadcast].
  - exact Hl.
  - pose proof (broadcast_keeps network_commits_once
                  net (envelope stx) h raw Hl) as Hk.
    destruct (broadcastTransaction net (envelope stx)) as [net1 [kind | h1]];
      cbn [fst] in Hk.
    + destruct (classify kind).
      * specialize (IH (S attempt) net1 h raw Hk).
        destruct (Submitter.broadcast _ _ n (S attempt) deadline net1 stx)
          as [[net2 tr] res]. exact IH.
      * pose proof (poll_keeps stx deadline net1 h raw Hk) as Hp.
        destruct (Submitter.poll _ deadline net1 stx) as [[net2 tr] res].
        exact Hp.
      * exact Hk.
    + pose proof (poll_keeps stx deadline net1 h raw Hk) as Hp.
      destruct (Submitter.poll _ deadline net1 stx) as [[net2 tr] res].
      exact Hp.
Qed.

End CommitsOnce.

End SubmitterFacts.

(** ** The submission path (specification, error handling design) *)

Section PipelineFacts.

Import NetworkClient NonceAllocator Submitter Pipeline.

Context {Net RawResult : Type}.
Variable broadcastTransaction :
  Net -> list Byte.byte -> Net * (ErrorKind + list Byte.byte).
Variable getTransactionStatus :
  Net -> list Byte.byte -> string -> Net * option RawResult.
Variable queryAccessKey : Net -> Key -> ChainView.
Variable sign : N -> option SignedTransaction.
Variable maxAttempts deadline : nat.
Variable key : Key.

Local Abbreviation attempt :=
  (attempt Net RawResult broadcastTransaction getTransactionStatus
           queryAccessKey sign maxAttempts deadline key).
Local Abbreviation sendTransaction :=
  (sendTransaction Net RawResult broadcastTransaction getTransactionStatus
                   queryAccessKey sign maxAttempts deadline key).

Lemma signatures_app (tr tr' : list Event) :
  signatures (tr ++ tr') = signatures tr + signatures tr'.
Proof. unfold signatures. now rewrite List.filter_app, length_app. Qed.

(** A submission signs nothing. *)
Lemma signatures_of_submission (stx : SignedTransaction) (tr : list Event) :
  Forall (event_of_submission stx) tr -> signatures tr = 0.
Proof.
  unfold signatures. induction 1 as [|ev tr Hev _ IH]; [reflexivity |].
  destruct ev; cbn in *; try contradiction; exact IH.
Qed.

(** One pass signs at most once. *)
Lemma attempt_signatures cache net :
  signatures (attempt cache net).1.2 <= 1.
Proof.
  unfold Pipeline.attempt.
  assert (Hl : signatures (match cache !! key with
                           | Some _ => []
                           | None => [QueryAccessKey key]
                           end) = 0)
    by (destruct (cache !! key); reflexivity).
  destruct (reserve cache key (queryAccessKey net key)) as [cache1 [e | nonce]].
  - cbn [fst snd]. rewrite Hl. lia.
  - destruct (sign nonce) as [stx|].
    + pose proof (broadcast_events broadcastTransaction getTransactionStatus
                    stx deadline maxAttempts 0 net) as Hs.
      unfold submit.
      destruct (broadcast _ _ maxAttempts 0 deadline net stx) as [[net1 tr] res].
      cbn [fst snd] in *. rewrite !signatures_app, Hl.
      rewrite (signatures_of_submission stx tr Hs). cbn. lia.
    + cbn [fst snd]. rewrite signatures_app, Hl. cbn. lia.
Qed.

(** After an invalidation the key is not cached, so the next pass asks
    the network first, and signs with the successor of what it is told. *)
Lemma attempt_after_invalidate cache net (onChain : N) (stx : SignedTransaction) :
  queryAccessKey net key = inr onChain ->
  sign (onChain + 1)%N = Some stx ->
  (attempt (invalidate cache key) net).1.2
  = QueryAccessKey key :: Sign (onChain + 1)%N
      :: (submit broadcastTransaction getTransactionStatus
                 maxAttempts deadline net stx).1.2.
Proof.
  intros Hq Hs. unfold Pipeline.attempt, reserve, invalidate.
  rewrite lookup_delete_eq, Hq, Hs.
  destruct (submit _ _ maxAttempts deadline net stx) as [[net1 tr] res].
  reflexivity.
Qed.

Lemma nonce_conflict_inv (r : PipelineError + SubmitResult RawResult) :
  nonce_conflict RawResult r = true -> r = inr (Rejected invalidNonce).
Proof.
  destruct r as [e | [raw | [] | |]]; cbn; congruence.
Qed.

(** C6: when the first pass ends on the network rejecting the nonce, the
    pipeline invalidates the cached entry and runs exactly one more
    pass, which starts by asking the network for the on-chain nonce and
    signs with its successor; if that pass is rejected for the nonce as
    well, the caller gets NonceConflictError and nothing more is signed
    or sent.  In no case are there more than two signatures. *)
Theorem nonce_conflict_retried_once cache net :
  nonce_conflict RawResult (attempt cache net).2 = true ->
  let first := attempt cache net in
  let second := attempt (invalidate first.1.1.1 key) first.1.1.2 in
  (sendTransaction cache net).1.2
  = first.1.2 ++ [InvalidateNonce key] ++ second.1.2
      ++ (if nonce_conflict RawResult second.2 then [InvalidateNonce key] else [])
  /\ (forall (onChain : N) (stx : SignedTransaction),
        queryAccessKey first.1.1.2 key = inr onChain ->
        sign (onChain + 1)%N = Some stx ->
        second.1.2
        = QueryAccessKey key :: Sign (onChain + 1)%N
            :: (submit broadcastTransaction getTransactionStatus
                       maxAttempts deadline first.1.1.2 stx).1.2)
  /\ (sendTransaction cache net).2
     = (if nonce_conflict RawResult second.2 then inl NonceConflictError
        else surface_attempt RawResult second.2)
  /\ signatures (sendTransaction cache net).1.2 <= 2
  /\ (forall cache' net',
        signatures (sendTransaction cache' net').1.2 <= 2).
Proof.
  assert (Hall : forall cache' net',
             signatures (sendTransaction cache' net').1.2 <= 2).
  { intros c n. unfold Pipeline.sendTransaction.
    pose proof (attempt_signatures c n) as H1.
    destruct (Pipeline.attempt _ _ _ _ _ _ _ _ _ c n) as [[[c1 n1] tr1] r1].
    cbn [fst snd] in H1.
    destruct (nonce_conflict RawResult r1); [| cbn [fst snd]; lia].
    pose proof (attempt_signatures (invalidate c1 key) n1) as H2.
    destruct (Pipeline.attempt _ _ _ _ _ _ _ _ _ (invalidate c1 key) n1)
      as [[[c2 n2] tr2] r2].
    cbn [fst snd] in H2.
    destruct (nonce_conflict RawResult r2); cbn [fst snd];
      rewrite !signatures_app; cbn; lia. }
  intros Hconflict first second.
  split; [| split; [| split; [| split]]].
  - subst first second. unfold Pipeline.sendTransaction.
    destruct (Pipeline.attempt _ _ _ _ _ _ _ _ _ cache net) as [[[c1 n1] tr1] r1].
    cbn [fst snd] in *. rewrite Hconflict.
    destruct (Pipeline.attempt _ _ _ _ _ _ _ _ _ (invalidate c1 key) n1)
      as [[[c2 n2] tr2] r2].
    cbn [fst snd]. destruct (nonce_conflict RawResult r2); cbn [fst snd].
    + reflexivity.
    + now rewrite app_nil_r.
  - intros onChain stx Hq Hs. subst second.
    now apply attempt_after_invalidate.
  - subst first second. unfold Pipeline.sendTransaction.
    destruct (Pipeline.attempt _ _ _ _ _ _ _ _ _ cache net) as [[[c1 n1] tr1] r1].
    cbn [fst snd] in *. rewrite Hconflict.
    destruct (Pipeline.attempt _ _ _ _ _ _ _ _ _ (invalidate c1 key) n1)
      as [[[c2 n2] tr2] r2].
    cbn [fst snd]. destruct (nonce_conflict RawResult r2); reflexivity.
  - apply Hall.
  - exact Hall.
Qed.

End PipelineFacts.

(** ** The statements at the scenarios of the specification *)

Section Scenarios.

Import NetworkClient NonceAllocator TransactionEncoder Submitter Pipeline.
Import Scenario.

(** C4 at the run of four calls: the three calls for K get 6, 7 and 8. *)
Lemma reserve_run_exact_witness :
  returned_for K (run ∅ four_calls).2 = [inr 6%N; inr 7%N; inr 8%N]
  /\ List.NoDup (returned_for K (run ∅ four_calls).2).
Proof.
  pose proof (reserve_run_exact four_calls ∅ K 5%N
                {| call_key := K; call_chain := inr 5%N |}
                [ {| call_key := K; call_chain := inl timeout |};
                  {| call_key := K; call_chain := inr 9%N |} ]
                (lookup_empty K) eq_refl eq_refl) as (H1 & H2 & _).
  split; [exact H1 | exact H2].
Defined.

Lemma example_discriminant_inj (k k' : ActionKind) :
  example_discriminant k = example_discriminant k' -> k = k'.
Proof. destruct k, k'; intros H; try reflexivity; discriminate H. Qed.

(** The bytes of the scenario's transfer with nonce 6 start with the
    length of the signer's name, on four bytes, least significant
    first. *)
Example encode_transfer_prefix :
  exists rest,
    encode example_schema example_discriminant (transfer 6)
    = Some (Byte.x06 :: Byte.x00 :: Byte.x00 :: Byte.x00
              :: list_byte_of_string "a.near" ++ rest).
Proof. eexists. vm_compute. reflexivity. Qed.

(** An amount that does not fit 128 bits is refused. *)
Example encode_refuses_overflow :
  encode_field u128 (Uint128 (2 ^ 128)) = None.
Proof. vm_compute. reflexivity. Qed.

(** C7 for the transfer with nonce 6 and the same transfer with nonce 8. *)
Lemma encode_deterministic_injective_witness :
  transfer 6 <> transfer 8
  /\ encode example_schema example_discriminant (transfer 6)
     <> encode example_schema example_discriminant (transfer 8).
Proof.
  assert (Hne : transfer 6 <> transfer 8) by discriminate.
  split; [exact Hne |].
  apply (proj2 (encode_deterministic_injective
                  example_schema example_discriminant example_discriminant_inj
                  (transfer 6) (transfer 8)) Hne).
  eexists. vm_compute. reflexivity.
Defined.

Lemma lossy_commits_once :
  commits_once lossy_broadcast lossy_status lossy_ledger.
Proof.
  constructor.
  - intros net h s net' raw [= <- H]. exact H.
  - intros [|net] b h raw H; [discriminate H | exact H].
  - intros net h' s h raw H. exact H.
Qed.

(** The retry scenario, run: the broadcast is answered by a timeout but
    lands, the same bytes are sent again, the network knows them, and
    polling gives the one outcome. *)
Example lossy_submission :
  submit lossy_broadcast lossy_status 4 2 0 signed
  = (2, [ Broadcast (envelope signed); Backoff 0;
          Broadcast (envelope signed);
          PollStatus (hash signed) (senderId signed) ],
     Final "SuccessValue").
Proof. reflexivity. Qed.

(** The nonce-conflict scenario, run from a cold cache: nonce 6 is
    rejected, the entry is dropped, the chain now says 7, nonce 8 is
    signed and goes through. *)
Example contended_submission :
  exists stx6 stx8,
    sign_transfer 6 = Some stx6 /\ sign_transfer 8 = Some stx8
    /\ (sendTransaction nat string contended_broadcast contended_status
          contended_query sign_transfer 4 2 K ∅ 0).1.2
       = [ QueryAccessKey K; Sign 6; Broadcast (envelope stx6);
           InvalidateNonce K;
           QueryAccessKey K; Sign 8; Broadcast (envelope stx8);
           PollStatus (hash stx8) (senderId stx8) ]
    /\ (sendTransaction nat string contended_broadcast contended_status
          contended_query sign_transfer 4 2 K ∅ 0).2
       = inr "SuccessValue".
Proof. do 2 eexists. vm_compute. repeat split. Qed.

(** C6 on the contended network, from a cold cache. *)
Lemma nonce_conflict_retried_once_witness :
  nonce_conflict string
    (attempt nat string contended_broadcast contended_status
       contended_query sign_transfer 4 2 K ∅ 0).2 = true
  /\ (sendTransaction nat string contended_broadcast contended_status
        contended_query sign_transfer 4 2 K ∅ 0).2
     = inr "SuccessValue"
  /\ signatures
       (sendTransaction nat string contended_broadcast contended_status
          contended_query sign_transfer 4 2 K ∅ 0).1.2 <= 2.
Proof.
  pose proof (nonce_conflict_retried_once contended_broadcast contended_status
                contended_query sign_transfer 4 2 K ∅ 0 eq_refl)
    as (_ & _ & H3 & H4 & _).
  split; [reflexivity | split; [exact H3 | exact H4]].
Defined.

(** C10 at the testnet config. *)
Lemma fromConfig_spec_witness :
  Connection.fromConfig (fun _ => "{}") testnet_config
  = ([], inr {| Connection.networkId := Some "testnet";
                Connection.provider :=
                  Connection.new_JsonRpcProvider
                    {[ "url" := "https://rpc.testnet.near.org" ]};
                Connection.signer := Connection.signer_as_is plain_signer;
                Connection.jsvmAccountId := Some "jsvm.testnet" |})
  /\ Connection.getProvider rpc_provider
     = inr (Connection.new_JsonRpcProvider
              (Connection.Object_assign_empty (Connection.args rpc_provider))).
Proof.
  split; [reflexivity |].
  exact (proj1 (proj2 (fromConfig_spec (fun _ => "{}") testnet_config)) eq_refl).
Defined.

End Scenarios.

(** ** Further properties of the key store *)

Section KeyStoreFormatFacts.

Import KeyStore KeyFormat.

Context {KeyPair : Type}.
Variable KeyPair_toString : KeyPair -> string.
Variable KeyPair_fromString : string -> string + KeyPair.

Local Abbreviation setKey := (setKey KeyPair_toString).
Local Abbreviation getKey := (getKey KeyPair_fromString).

Lemma append_String (c : Ascii.ascii) (s t : string) :
  String c s +:+ t = String c (s +:+ t).
Proof. reflexivity. Qed.

Lemma append_assoc (s t u : string) : (s +:+ t) +:+ u = s +:+ t +:+ u.
Proof.
  induction s as [|c s IH]; [reflexivity |].
  rewrite !append_String. now rewrite IH.
Qed.

Lemma length_append (s t : string) :
  String.length (s +:+ t) = String.length s + String.length t.
Proof.
  induction s as [|c s IH]; [reflexivity |].
  rewrite append_String. cbn [String.length]. now rewrite IH.
Qed.

Lemma has_colon_append (s t : string) :
  has_colon (s +:+ t) = has_colon s || has_colon t.
Proof.
  induction s as [|c s IH]; [reflexivity |].
  rewrite append_String. cbn [has_colon]. rewrite IH. apply orb_assoc.
Qed.

(** Where the first colon sits decides both sides of it. *)
Lemma colon_separates (a a' n n' : string) :
  has_colon a = false -> has_colon a' = false ->
  a +:+ ":" +:+ n = a' +:+ ":" +:+ n' ->
  a = a' /\ n = n'.
Proof.
  revert a'. induction a as [|c a IH]; intros [|c' a'] Ha Ha' Heq;
    cbv [String.append] in Heq; fold String.append in Heq.
  - injection Heq as ->. auto.
  - injection Heq as <- _. cbn in Ha'. discriminate Ha'.
  - injection Heq as -> _. cbn in Ha. discriminate Ha.
  - injection Heq as -> Heq.
    cbn [has_colon] in Ha, Ha'.
    apply orb_false_iff in Ha as [_ Ha]. apply orb_false_iff in Ha' as [_ Ha'].
    destruct (IH a' Ha Ha' Heq) as [-> ->]. auto.
Qed.

Lemma startsWith_append (p s : string) : startsWith (p +:+ s) p = true.
Proof.
  induction p as [|c p IH]; [now destruct s |].
  rewrite append_String. cbn [startsWith].
  now rewrite Ascii.eqb_refl, IH.
Qed.

Lemma substring_from_append (p s : string) :
  substring_from (String.length p) (p +:+ s) = s.
Proof. induction p as [|c p IH]; [now destruct s | exact IH]. Qed.

Lemma split_no_colon (s : string) :
  has_colon s = false -> split COLON s = [s].
Proof.
  induction s as [|c s IH]; [reflexivity |]. cbn [has_colon split].
  intros H. apply orb_false_iff in H as [Hc Hs].
  now rewrite Hc, (IH Hs).
Qed.

Lemma split_at_colon (a n : string) :
  has_colon a = false ->
  split COLON (a +:+ ":" +:+ n) = a :: split COLON n.
Proof.
  induction a as [|c a IH]; intros Ha.
  - reflexivity.
  - rewrite append_String. cbn [has_colon split] in *.
    apply orb_false_iff in Ha as [Hc Ha].
    now rewrite Hc, (IH Ha).
Qed.

(** The storage key always has a colon, the name written to
    [chrome.storage.local] has none. *)
Lemma storageKey_not_auth_key (this : BrowserLocalStorageKeyStore)
    (networkId accountId : string) :
  storageKeyForSecretKey this networkId accountId <> AUTH_KEY.
Proof.
  intros H. apply (f_equal has_colon) in H.
  unfold storageKeyForSecretKey in H.
  rewrite !has_colon_append in H.
  change (has_colon AUTH_KEY) with false in H.
  change (has_colon ":") with true in H.
  destruct (has_colon (prefix this)), (has_colon accountId); discriminate H.
Qed.

(** X3: on one instance, two pairs whose account ids hold no colon have
    the same storage key only if they are the same pair; so, for such
    ids, a key stored for one pair is never the answer for another. *)
Theorem storageKey_injective (this : BrowserLocalStorageKeyStore)
    (chrome : ChromeStorage)
    (networkId accountId networkId' accountId' : string) (kp : KeyPair) :
  has_colon accountId = false ->
  has_colon accountId' = false ->
  (storageKeyForSecretKey this networkId accountId
   = storageKeyForSecretKey this networkId' accountId' ->
   networkId = networkId' /\ accountId = accountId')
  /\ ((networkId, accountId) <> (networkId', accountId') ->
      getKey (setKey this chrome networkId' accountId' kp).1 networkId accountId
      = getKey this networkId accountId).
Proof.
  intros Ha Ha'.
  assert (Hinj : storageKeyForSecretKey this networkId accountId
                 = storageKeyForSecretKey this networkId' accountId' ->
                 networkId = networkId' /\ accountId = accountId').
  { unfold storageKeyForSecretKey. intros Heq.
    apply (inj (String.app (prefix this))) in Heq.
    destruct (colon_separates _ _ _ _ Ha Ha' Heq); auto. }
  split; [exact Hinj |].
  intros Hne. unfold KeyStore.getKey.
  change (storageKeyForSecretKey (setKey this chrome networkId' accountId' kp).1
            networkId accountId)
    with (storageKeyForSecretKey this networkId accountId).
  cbn [fst KeyStore.setKey localStorage].
  rewrite lookup_insert_ne; [reflexivity |].
  intros Heq. symmetry in Heq. apply Hinj in Heq as [-> ->]. now apply Hne.
Qed.

(** X4: an account id with a colon in it aliases another pair: the
    pair (network [n], account [a:m]) and the pair (network [m:n],
    account [a]) share their storage key, so that what is stored for
    the one is what is read for the other. *)
Theorem storageKey_alias (this : BrowserLocalStorageKeyStore)
    (chrome : ChromeStorage) (a m n : string) (kp : KeyPair) :
  storageKeyForSecretKey this n (a +:+ ":" +:+ m)
  = storageKeyForSecretKey this (m +:+ ":" +:+ n) a
  /\ getKey (setKey this chrome n (a +:+ ":" +:+ m) kp).1 (m +:+ ":" +:+ n) a
     = getKey (setKey this chrome n (a +:+ ":" +:+ m) kp).1 n (a +:+ ":" +:+ m)
  /\ (a +:+ ":" +:+ m <> a).
Proof.
  assert (Hk : storageKeyForSecretKey this n (a +:+ ":" +:+ m)
               = storageKeyForSecretKey this (m +:+ ":" +:+ n) a).
  { unfold storageKeyForSecretKey. now rewrite !append_assoc. }
  split; [exact Hk | split].
  - unfold KeyStore.getKey.
    change (storageKeyForSecretKey (setKey this chrome n (a +:+ ":" +:+ m) kp).1)
      with (storageKeyForSecretKey this).
    now rewrite Hk.
  - intros H. apply (f_equal String.length) in H.
    rewrite !length_append in H. cbn in H. lia.
Qed.

(** X5: storing twice for the same pair is storing the last key pair
    once, for the dictionary and for [chrome.storage.local] alike; and
    removing a pair that had no entry before it was stored gives the
    dictionary back as it was. *)
Theorem setKey_overwrites (this : BrowserLocalStorageKeyStore)
    (chrome : ChromeStorage) (networkId accountId : string)
    (kp1 kp2 : KeyPair) :
  (let s1 := setKey this chrome networkId accountId kp1 in
   setKey s1.1 s1.2 networkId accountId kp2
   = setKey this chrome networkId accountId kp2)
  /\ (localStorage this !! storageKeyForSecretKey this networkId accountId = None ->
      let s1 := setKey this chrome networkId accountId kp1 in
      (removeKey s1.1 s1.2 networkId accountId).1 = this).
Proof.
  split.
  - cbn. unfold KeyStore.setKey. cbn [localStorage prefix].
    change (storageKeyForSecretKey
              {| localStorage := _; prefix := prefix this |} networkId accountId)
      with (storageKeyForSecretKey this networkId accountId).
    f_equal; [f_equal |]; apply insert_insert_eq.
  - intros Habs. cbn. unfold removeKey, KeyStore.setKey. cbn [fst localStorage prefix].
    change (storageKeyForSecretKey
              {| localStorage := _; prefix := prefix this |} networkId accountId)
      with (storageKeyForSecretKey this networkId accountId).
    rewrite delete_insert_eq, delete_id by assumption.
    now destruct this.
Qed.

(** X6: [removeKey] leaves every other storage key alone, and it never
    erases what [setKey] wrote to [chrome.storage.local]: after
    [setKey] and any number of [removeKey]s, the string encoding of the
    key pair is still there under ['near_app_wallet_auth_key']. *)
Theorem removeKey_keeps_auth_key (this : BrowserLocalStorageKeyStore)
    (chrome : ChromeStorage) (networkId accountId : string) (kp : KeyPair)
    (removals : list (string * string)) :
  let s1 := setKey this chrome networkId accountId kp in
  let s2 := fold_left (fun s p => removeKey s.1 s.2 p.1 p.2) removals s1 in
  s2.2 !! AUTH_KEY = Some (KeyPair_toString kp)
  /\ (forall networkId' accountId',
        storageKeyForSecretKey this networkId' accountId'
        <> storageKeyForSecretKey this networkId accountId ->
        getKey (removeKey this chrome networkId accountId).1 networkId' accountId'
        = getKey this networkId' accountId').
Proof.
  cbn zeta. split.
  - assert (Hfold : forall s : BrowserLocalStorageKeyStore * ChromeStorage,
               (fold_left (fun s p => removeKey s.1 s.2 p.1 p.2) removals s).2
                 !! AUTH_KEY
               = s.2 !! AUTH_KEY).
    { induction removals as [|p ps IH]; intros s; [reflexivity |].
      cbn [fold_left]. rewrite IH. unfold removeKey. cbn [snd].
      apply lookup_delete_ne. apply storageKey_not_auth_key. }
    rewrite Hfold. unfold KeyStore.setKey. cbn [snd].
    apply lookup_insert_eq.
  - intros n' a' Hne. unfold KeyStore.getKey, removeKey.
    cbn [fst localStorage].
    change (storageKeyForSecretKey
              {| localStorage := _; prefix := prefix this |} n' a')
      with (storageKeyForSecretKey this n' a').
    rewrite lookup_delete_ne; [reflexivity | congruence].
Qed.

(** X7: nothing [setKey] does can be read back by an instance that is
    opened later on the same [chrome.storage.local]: for every pair,
    such an instance answers after the [setKey] what it would have
    answered before it.  And on the instance itself, when the stored
    data the constructor asked for arrive after a [setKey], they replace
    the dictionary: with no entry for the pair among them, the answer
    for the pair that was just stored is [null]. *)
Theorem setKey_not_persisted (this : BrowserLocalStorageKeyStore)
    (chrome result : ChromeStorage) (networkId accountId : string)
    (kp : KeyPair) (prefix' networkId' accountId' : string) :
  getKey (reopened prefix' (setKey this chrome networkId accountId kp).2)
         networkId' accountId'
  = getKey (reopened prefix' chrome) networkId' accountId'
  /\ (result !! storageKeyForSecretKey this networkId accountId = None ->
      getKey (on_storage_loaded result
                (setKey this chrome networkId accountId kp).1)
             networkId accountId
      = inr None).
Proof.
  split; [| intros H; apply getKey_absent; exact H].
  unfold KeyStore.getKey.
  change (storageKeyForSecretKey (reopened prefix' _) networkId' accountId')
    with (storageKeyForSecretKey (new (Some prefix')) networkId' accountId').
  change (localStorage (reopened prefix'
                          (setKey this chrome networkId accountId kp).2))
    with (<[AUTH_KEY := KeyPair_toString kp]> chrome).
  change (localStorage (reopened prefix' chrome)) with chrome.
  unfold ChromeStorage in *.
  rewrite lookup_insert_ne; [reflexivity |].
  intros H. symmetry in H. revert H. apply storageKey_not_auth_key.
Qed.

(** X8: the bodies of the loops of [getNetworks] and [getAccounts] read
    back what [storageKeyForSecretKey] wrote: run on the storage key of
    a pair whose ids hold no colon, the one adds the network to the set
    and the other appends the account when the network is the one asked
    for, and nothing otherwise; a string that does not start with the
    prefix is skipped by both. *)
Theorem loop_bodies_parse_storageKey (this : BrowserLocalStorageKeyStore)
    (networkId accountId asked : string) (result : list (option string)) :
  has_colon accountId = false ->
  has_colon networkId = false ->
  let key := storageKeyForSecretKey this networkId accountId in
  getNetworks_body this result key = Set_add (Some networkId) result
  /\ getAccounts_body this networkId result key = result ++ [Some accountId]
  /\ (asked <> networkId -> getAccounts_body this asked result key = result)
  /\ (forall other, startsWith other (prefix this) = false ->
        getNetworks_body this result other = result
        /\ getAccounts_body this asked result other = result).
Proof.
  intros Ha Hn key.
  assert (Hparts : split COLON (substring_from (String.length (prefix this)) key)
                   = [accountId; networkId]).
  { subst key. unfold storageKeyForSecretKey.
    rewrite substring_from_append, split_at_colon by assumption.
    now rewrite split_no_colon. }
  assert (Hs : startsWith key (prefix this) = true)
    by apply startsWith_append.
  unfold getNetworks_body, getAccounts_body. rewrite Hs, Hparts. cbn [lookup].
  split; [reflexivity | split; [| split]].
  - cbn. now rewrite bool_decide_eq_true_2.
  - intros Hne. cbn. rewrite bool_decide_eq_false_2; [reflexivity | congruence].
  - intros other Ho. now rewrite Ho.
Qed.

(** X9: the loop of [clear], run on any keys, stops with a TypeError at
    the first one that starts with the prefix, because the dictionary
    is a plain object and has no [removeItem]; it completes, changing
    nothing, only if no key starts with the prefix. *)
Theorem clear_loop_throws (this : BrowserLocalStorageKeyStore)
    (keys : list string) :
  for_each_try keys clear_body this
  = if existsb (fun key => startsWith key (prefix this)) keys
    then inl (not_a_function "this.localStorage.removeItem")
    else inr this.
Proof.
  induction keys as [|key keys IH]; [reflexivity |].
  cbn [for_each_try existsb]. unfold clear_body at 1.
  destruct (startsWith key (prefix this)); [reflexivity | exact IH].
Qed.

End KeyStoreFormatFacts.

(** ** Further properties of the errors, the logging and the connection *)

Section ErrorsMoreFacts.

Import Errors Warning.

(** X1: the [type] of a TypedError is never the empty string, whatever
    it is built from; and building an error again from the fields of an
    error gives that error back. *)
Theorem TypedError_type_never_empty
    (message type_ : option string) (context : option ErrorContext) :
  let e := TypedError_new message type_ context in
  type e <> ""
  /\ TypedError_new (Some (Errors.message e)) (Some (type e)) (Errors.context e)
     = e.
Proof.
  cbn zeta.
  assert (Hne : type (TypedError_new message type_ context) <> "").
  { cbn. destruct type_ as [[|c s]|]; cbn; discriminate. }
  split; [exact Hne |].
  unfold TypedError_new at 1. cbn [Errors.message Errors.context Error_message].
  rewrite (or_else_truthy _ _ Hne). reflexivity.
Qed.

(** X2: [logWarning] passes its arguments to [console.warn], once and
    unchanged, exactly when [process] is null or undefined or
    [process.env] has no [NEAR_NO_LOGS] or an empty one; any non-empty
    value of [NEAR_NO_LOGS] silences it; and it throws, without
    warning, when [process] is not declared or has no [env]. *)
Theorem logWarning_cases {Value : Type}
    (process : ProcessBinding) (args : list Value) :
  (logWarning process args = inr [args] <->
     process = process_nullish
     \/ exists e, process = process_object {| env := Some e |}
                  /\ (e !! "NEAR_NO_LOGS" = None \/ e !! "NEAR_NO_LOGS" = Some ""))
  /\ (logWarning process args = inr [] <->
        exists e v, process = process_object {| env := Some e |}
                    /\ e !! "NEAR_NO_LOGS" = Some v /\ v <> "")
  /\ ((exists err, logWarning process args = inl err) <->
        process = process_undeclared
        \/ process = process_object {| env := None |}).
Proof.
  destruct process as [| | [[e|]]]; cbn.
  - split; [| split]; split; intros H.
    + discriminate H.
    + destruct H as [H | (e & H & _)]; discriminate H.
    + discriminate H.
    + destruct H as (e & v & H & _). discriminate H.
    + now left.
    + eauto.
  - split; [| split]; split; intros H.
    + now left.
    + reflexivity.
    + discriminate H.
    + destruct H as (e & v & H & _). discriminate H.
    + destruct H as [err H]. discriminate H.
    + destruct H as [H | H]; discriminate H.
  - destruct (e !! "NEAR_NO_LOGS") as [[|c v]|] eqn:E; cbn;
      (split; [| split]; split; intros H).
    + right. exists e. auto.
    + reflexivity.
    + discriminate H.
    + destruct H as (e' & v & [= <-] & Hv & Hne). congruence.
    + destruct H as [err H]. discriminate H.
    + destruct H as [H | H]; discriminate H.
    + discriminate H.
    + destruct H as [H | (e' & [= <-] & [H | H])]; congruence.
    + exists e, (String c v). auto.
    + reflexivity.
    + destruct H as [err H]. discriminate H.
    + destruct H as [H | H]; discriminate H.
    + right. exists e. auto.
    + reflexivity.
    + discriminate H.
    + destruct H as (e' & v & [= <-] & Hv & Hne). congruence.
    + destruct H as [err H]. discriminate H.
    + destruct H as [H | H]; discriminate H.
  - split; [| split]; split; intros H.
    + discriminate H.
    + destruct H as [H | (e & H & _)]; discriminate H.
    + discriminate H.
    + destruct H as (e & v & H & _). discriminate H.
    + now right.
    + eauto.
Qed.

End ErrorsMoreFacts.

Section LoggingMoreFacts.

Import Logging.

Context {ExecutionError ServerError : Type}.
Variable parseRpcError : ExecutionError -> ServerError.

(** The [reduce] is a filter followed by a map. *)
Lemma flatLogs_filter_map (o : FinalExecutionOutcome ExecutionError) :
  flatLogs parseRpcError o
  = map (fun it => {| receiptIds := receipt_ids (outcome it);
                      flat_logs := logs (outcome it);
                      failure := failureOf parseRpcError (status (outcome it)) |})
        (List.filter
           (fun it => negb (Nat.eqb (length (logs (outcome it))) 0)
                      || isFailure (status (outcome it)))
           (nodes o)).
Proof.
  rewrite flatLogs_nodes.
  induction (nodes o) as [|it l IH]; [reflexivity |].
  cbn [flat_map List.filter]. rewrite IH.
  unfold flatLogs_of_node at 1, flatLogs_step.
  destruct (negb _ || _); reflexivity.
Qed.

(** X10: [flatLogs] is the list of the nodes, the root first and then
    the receipts in the order given, from which the nodes with neither
    a log nor a Failure status are dropped and in which every node that
    is kept is replaced, once, by its receipt ids, its logs and its
    parsed failure.  So an element is in it exactly when it is made
    from such a node, it is never longer than the list of nodes, and
    none of its elements is without both logs and failure. *)
Theorem flatLogs_elements (o : FinalExecutionOutcome ExecutionError)
    (r : FlatLog ServerError) :
  flatLogs parseRpcError o
  = map (fun it => {| receiptIds := receipt_ids (outcome it);
                      flat_logs := logs (outcome it);
                      failure := failureOf parseRpcError (status (outcome it)) |})
        (List.filter
           (fun it => negb (Nat.eqb (length (logs (outcome it))) 0)
                      || isFailure (status (outcome it)))
           (nodes o))
  /\ (In r (flatLogs parseRpcError o) <->
     exists it,
       In it (nodes o)
       /\ (logs (outcome it) <> [] \/ isFailure (status (outcome it)) = true)
       /\ r = {| receiptIds := receipt_ids (outcome it);
                 flat_logs := logs (outcome it);
                 failure := failureOf parseRpcError (status (outcome it)) |})
  /\ length (flatLogs parseRpcError o) <= S (length (receipts_outcome o))
  /\ (In r (flatLogs parseRpcError o) ->
      flat_logs r <> [] \/ failure r <> None).
Proof.
  assert (Hnode : forall it r',
             In r' (flatLogs_of_node parseRpcError it) <->
             (logs (outcome it) <> [] \/ isFailure (status (outcome it)) = true)
             /\ r' = {| receiptIds := receipt_ids (outcome it);
                        flat_logs := logs (outcome it);
                        failure := failureOf parseRpcError (status (outcome it)) |}).
  { intros it r'. unfold flatLogs_of_node, flatLogs_step.
    destruct (logs (outcome it)) as [|l ls] eqn:El; cbn.
    - destruct (isFailure (status (outcome it))); cbn.
      + split; [intros [<- | []]; auto | intros [_ ->]; now left].
      + split; [intros [] | intros [[H | H] _]; congruence].
    - split; [intros [<- | []]; split; [left; discriminate | reflexivity]
             | intros [_ ->]; now left]. }
  assert (Hin : In r (flatLogs parseRpcError o) <->
                exists it,
                  In it (nodes o)
                  /\ (logs (outcome it) <> [] \/ isFailure (status (outcome it)) = true)
                  /\ r = {| receiptIds := receipt_ids (outcome it);
                            flat_logs := logs (outcome it);
                            failure := failureOf parseRpcError (status (outcome it)) |}).
  { rewrite flatLogs_nodes, in_flat_map. split.
    - intros (it & Hit & Hr). apply Hnode in Hr. eauto.
    - intros (it & Hit & Hk & Hr). exists it. split; [exact Hit |].
      apply Hnode. auto. }
  split; [apply flatLogs_filter_map | split; [exact Hin | split]].
  - rewrite flatLogs_nodes. unfold nodes.
    change (S (length (receipts_outcome o)))
      with (length (transaction_outcome o :: receipts_outcome o)).
    induction (transaction_outcome o :: receipts_outcome o) as [|it l IH];
      [reflexivity |].
    cbn [flat_map]. rewrite length_app. cbn [length].
    assert (length (flatLogs_of_node parseRpcError it) <= 1).
    { unfold flatLogs_of_node, flatLogs_step.
      destruct (negb _ || _); cbn; lia. }
    lia.
  - intros Hr. apply Hin in Hr as (it & _ & Hk & ->). cbn.
    destruct Hk as [Hk | Hk]; [now left | right].
    unfold isFailure in Hk. unfold failureOf.
    destruct (status (outcome it)) as [tag | st]; [discriminate |].
    destruct (Failure st); [discriminate | discriminate].
Qed.

End LoggingMoreFacts.

Section ConnectionMoreFacts.

Import Connection.

Context {Members KeyStore : Type}.
Variable inspect : option KeyStore -> string.

(** X11: [fromConfig] writes to the console only when the provider
    could be resolved and the signer's [type] is ['InMemorySigner'],
    and then one line, which shows the key store; when the provider's
    [type] is unknown the signer is not looked at, so that nothing is
    written and the error is the provider's even if the signer's [type]
    is unknown as well. *)
Theorem fromConfig_console (config : Config Members KeyStore) :
  let pc := config_provider config in
  let sc := config_signer config in
  (forall p, getProvider pc = inr p ->
     type sc = type_string "InMemorySigner" ->
     (fromConfig inspect config).1
     = [JS.console_log
          ("inmemory signer " +:+ " " +:+ inspect (keyStore sc))])
  /\ (type sc <> type_string "InMemorySigner" ->
      (fromConfig inspect config).1 = [])
  /\ (forall e, getProvider pc = inl e ->
        fromConfig inspect config = ([], inl e)).
Proof.
  cbn zeta. split; [| split].
  - intros p Hp Hs. unfold Connection.fromConfig, Connection.getSigner.
    rewrite Hp, Hs. reflexivity.
  - intros Hs. unfold Connection.fromConfig.
    destruct (getProvider (config_provider config)) as [e | p]; [reflexivity |].
    unfold Connection.getSigner.
    destruct (type (config_signer config)) as [| s | r] eqn:E; cbn;
      try reflexivity.
    destruct (String.eqb_spec s "InMemorySigner") as [-> | Hne];
      [congruence | reflexivity].
  - intros e He. now apply fromConfig_inl_provider.
Qed.

End ConnectionMoreFacts.

Section KeyStoreLoopFacts.

Import KeyStore KeyFormat.

Lemma Set_add_NoDup (x : option string) (s : list (option string)) :
  NoDup s -> NoDup (Set_add x s).
Proof.
  intros Hs. unfold Set_add. case_bool_decide as Hx; [exact Hs |].
  apply NoDup_app. split; [exact Hs | split].
  - intros y Hy Hin. apply list_elem_of_singleton in Hin. congruence.
  - apply NoDup_singleton.
Qed.

Lemma Set_add_keeps (x y : option string) (s : list (option string)) :
  y ∈ s -> y ∈ Set_add x s.
Proof.
  intros Hy. unfold Set_add. case_bool_decide; [exact Hy |].
  apply elem_of_app. now left.
Qed.

(** X12: whatever keys the loop of [getNetworks] is run on, and however
    often a network occurs among them, its result holds no network
    twice; and what was in the set stays in it. *)
Theorem getNetworks_loop_no_duplicates (this : BrowserLocalStorageKeyStore)
    (keys : list string) (result : list (option string)) :
  NoDup result ->
  NoDup (fold_left (getNetworks_body this) keys result)
  /\ (forall x, x ∈ result ->
        x ∈ fold_left (getNetworks_body this) keys result).
Proof.
  revert result. induction keys as [|key keys IH]; intros result Hnd.
  - split; [exact Hnd | auto].
  - cbn [fold_left].
    assert (Hstep : NoDup (getNetworks_body this result key)).
    { unfold getNetworks_body. destruct (startsWith key (prefix this));
        [now apply Set_add_NoDup | exact Hnd]. }
    destruct (IH _ Hstep) as [H1 H2]. split; [exact H1 |].
    intros x Hx. apply H2. unfold getNetworks_body.
    destruct (startsWith key (prefix this)); [now apply Set_add_keeps | exact Hx].
Qed.

End KeyStoreLoopFacts.

(** ** The further properties at concrete inputs *)

Section MoreScenarios.

Import KeyStore KeyFormat.

(** X3 for two accounts of two networks on a new instance. *)
Lemma storageKey_injective_witness :
  (storageKeyForSecretKey (new None) "testnet" "alice.testnet"
   = storageKeyForSecretKey (new None) "mainnet" "alice.near" ->
   "testnet" = "mainnet" /\ "alice.testnet" = "alice.near")
  /\ (("testnet", "alice.testnet") <> ("mainnet", "alice.near") ->
      getKey inr
        (setKey (fun s : string => s) (new None) ∅ "mainnet" "alice.near"
                "ed25519:secret").1
        "testnet" "alice.testnet"
      = getKey inr (new None) "testnet" "alice.testnet").
Proof.
  exact (storageKey_injective (fun s : string => s) inr (new None) ∅
           "testnet" "alice.testnet" "mainnet" "alice.near" "ed25519:secret"
           eq_refl eq_refl).
Defined.

(** X8 for the key of an account of the test network. *)
Lemma loop_bodies_parse_storageKey_witness :
  getNetworks_body (new None) []
    (storageKeyForSecretKey (new None) "testnet" "alice.testnet")
  = [Some "testnet"]
  /\ getAccounts_body (new None) "testnet" []
       (storageKeyForSecretKey (new None) "testnet" "alice.testnet")
     = [Some "alice.testnet"].
Proof.
  pose proof (loop_bodies_parse_storageKey (new None)
                "testnet" "alice.testnet" "mainnet" [] eq_refl eq_refl)
    as (H1 & H2 & _).
  split; [exact H1 | exact H2].
Defined.

(** X12 from the empty set, on two keys of the same network. *)
Lemma getNetworks_loop_no_duplicates_witness :
  NoDup (fold_left (getNetworks_body (new None))
           [ storageKeyForSecretKey (new None) "testnet" "alice.testnet";
             storageKeyForSecretKey (new None) "testnet" "bob.testnet" ]
           []).
Proof.
  exact (proj1 (getNetworks_loop_no_duplicates (new None)
                  [ storageKeyForSecretKey (new None) "testnet" "alice.testnet";
                    storageKeyForSecretKey (new None) "testnet" "bob.testnet" ]
                  [] (@NoDup_nil_2 (option string)))). 
Defined.

End MoreScenarios.

(** ** The key store over a sequence of calls *)

Section KeyStoreRunFacts.

Import KeyStore KeyFormat KeyStoreRun.

Context {KeyPair : Type}.
Variable KeyPair_toString : KeyPair -> string.
Variable KeyPair_fromString : string -> string + KeyPair.

Local Abbreviation getKey := (getKey KeyPair_fromString).
Local Abbreviation step := (step KeyPair_toString).
Local Abbreviation run := (run KeyPair_toString).

Implicit Types (w : World) (s : Step KeyPair) (steps : list (Step KeyPair)).

Lemma step_prefix w s : prefix (instance (step w s)) = prefix (instance w).
Proof.
  destruct s as [n a kp | n a |]; cbn; try reflexivity.
  destruct (pending w); reflexivity.
Qed.

Lemma step_storageKey w s (networkId accountId : string) :
  storageKeyForSecretKey (instance (step w s)) networkId accountId
  = storageKeyForSecretKey (instance w) networkId accountId.
Proof. unfold storageKeyForSecretKey. now rewrite step_prefix. Qed.

Lemma run_storageKey steps : forall w (networkId accountId : string),
  storageKeyForSecretKey (instance (run w steps)) networkId accountId
  = storageKeyForSecretKey (instance w) networkId accountId.
Proof.
  induction steps as [|s steps IH]; intros w n a; [reflexivity |].
  cbn [KeyStoreRun.run fold_left]. fold (run (step w s) steps).
  now rewrite IH, step_storageKey.
Qed.

Lemma step_pending_None w s :
  pending w = None -> pending (step w s) = None.
Proof.
  intros H. destruct s as [n a kp | n a |]; cbn; try exact H.
  now rewrite H.
Qed.

(** Two pairs with account ids without a colon, one storage key: one
    pair. *)
Lemma storageKey_same_pair (this : BrowserLocalStorageKeyStore)
    (n a n' a' : string) :
  has_colon a = false -> has_colon a' = false ->
  storageKeyForSecretKey this n' a' = storageKeyForSecretKey this n a ->
  String.eqb n' n && String.eqb a' a = true.
Proof.
  intros Ha Ha' Heq. unfold storageKeyForSecretKey in Heq.
  apply (inj (String.app (prefix this))) in Heq.
  destruct (colon_separates _ _ _ _ Ha' Ha Heq) as [-> ->].
  now rewrite !String.eqb_refl.
Qed.

Lemma touches_true (n a : string) s :
  touches n a s = true ->
  s = call_removeKey n a \/ exists kp, s = call_setKey n a kp.
Proof.
  destruct s as [n' a' kp | n' a' |]; cbn; try discriminate.
  - intros H. apply andb_true_iff in H as [Hn Ha].
    apply String.eqb_eq in Hn as ->. apply String.eqb_eq in Ha as ->. eauto.
  - intros H. apply andb_true_iff in H as [Hn Ha].
    apply String.eqb_eq in Hn as ->. apply String.eqb_eq in Ha as ->. eauto.
Qed.

(** One step, seen from the entry of a pair. *)
Lemma step_lookup w s (n a : string) :
  has_colon a = false ->
  colon_free s = true ->
  (pending w = None \/ is_call s = true) ->
  localStorage (instance (step w s)) !! storageKeyForSecretKey (instance w) n a
  = if touches n a s then KeyPair_toString <$> leaves s
    else localStorage (instance w) !! storageKeyForSecretKey (instance w) n a.
Proof.
  intros Ha Hs Hsettled.
  destruct s as [n' a' kp | n' a' |]; cbn [touches leaves].
  - cbn in Hs. apply negb_true_iff in Hs.
    cbn [KeyStoreRun.step KeyStore.setKey instance localStorage].
    destruct (String.eqb n' n && String.eqb a' a) eqn:E.
    + apply andb_true_iff in E as [Hn Ha'].
      apply String.eqb_eq in Hn as ->. apply String.eqb_eq in Ha' as ->.
      apply lookup_insert_eq.
    + apply lookup_insert_ne. intros Heq.
      rewrite (storageKey_same_pair _ _ _ _ _ Ha Hs Heq) in E. discriminate E.
  - cbn in Hs. apply negb_true_iff in Hs.
    cbn [KeyStoreRun.step KeyStore.removeKey instance localStorage].
    destruct (String.eqb n' n && String.eqb a' a) eqn:E.
    + apply andb_true_iff in E as [Hn Ha'].
      apply String.eqb_eq in Hn as ->. apply String.eqb_eq in Ha' as ->.
      apply lookup_delete_eq.
    + apply lookup_delete_ne. intros Heq.
      rewrite (storageKey_same_pair _ _ _ _ _ Ha Hs Heq) in E. discriminate E.
  - destruct Hsettled as [Hp | Hc]; [| discriminate Hc].
    cbn. now rewrite Hp.
Qed.

(** The entry of a pair after a sequence of steps is what the last call
    for the pair left, and the entry it had before when there was no
    such call. *)
Lemma run_lookup steps : forall w (n a : string),
  has_colon a = false ->
  forallb colon_free steps = true ->
  (pending w = None \/ forallb is_call steps = true) ->
  localStorage (instance (run w steps)) !! storageKeyForSecretKey (instance w) n a
  = match last_call n a steps with
    | Some r => KeyPair_toString <$> r
    | None => localStorage (instance w) !! storageKeyForSecretKey (instance w) n a
    end.
Proof.
  induction steps as [|s steps IH]; intros w n a Ha Hcf Hsettled.
  - reflexivity.
  - cbn [forallb] in Hcf. apply andb_true_iff in Hcf as [Hs Hcf].
    assert (Hsettled' : pending (step w s) = None \/ forallb is_call steps = true).
    { destruct Hsettled as [Hp | Hc]; [left; now apply step_pending_None |].
      cbn [forallb] in Hc. apply andb_true_iff in Hc as [_ Hc]. now right. }
    assert (Hstep : pending w = None \/ is_call s = true).
    { destruct Hsettled as [Hp | Hc]; [now left |].
      cbn [forallb] in Hc. apply andb_true_iff in Hc as [Hc _]. now right. }
    cbn [KeyStoreRun.run fold_left last_call]. fold (run (step w s) steps).
    rewrite <- (step_storageKey w s n a).
    rewrite (IH (step w s) n a Ha Hcf Hsettled').
    destruct (last_call n a steps) as [r|]; [reflexivity |].
    rewrite (step_storageKey w s n a).
    rewrite (step_lookup w s n a Ha Hs Hstep).
    destruct (touches n a s); reflexivity.
Qed.

(** C8, as amended: take an instance in any state, and any sequence of
    [setKey] and [removeKey] calls on it whose account ids, like the
    one asked for, hold no colon, the stored data the constructor asked
    for having arrived before the sequence or not arriving during it.
    After the sequence, [getKey] for a pair answers a key pair with the
    string encoding of the one stored last for that pair when the last
    call for the pair is a [setKey] (given that [KeyPair.fromString]
    reads back what [KeyPair.toString] wrote, and that the encoding is
    not empty); it answers [null] when the last call for the pair is a
    [removeKey]; and when there was no call for the pair it answers
    what it answered before the sequence, which is [null] on a newly
    constructed instance. *)
Theorem getKey_answers_last_call
    (w : World) (steps : list (Step KeyPair)) (networkId accountId : string) :
  has_colon accountId = false ->
  forallb colon_free steps = true ->
  (pending w = None \/ forallb is_call steps = true) ->
  (forall kp,
     last_call networkId accountId steps = Some (Some kp) ->
     KeyPair_toString kp <> "" ->
     (exists kp', KeyPair_fromString (KeyPair_toString kp) = inr kp'
                  /\ KeyPair_toString kp' = KeyPair_toString kp) ->
     exists kp',
       getKey (instance (run w steps)) networkId accountId = inr (Some kp')
       /\ KeyPair_toString kp' = KeyPair_toString kp)
  /\ (last_call networkId accountId steps = Some None ->
      getKey (instance (run w steps)) networkId accountId = inr None)
  /\ (last_call networkId accountId steps = None ->
      getKey (instance (run w steps)) networkId accountId
      = getKey (instance w) networkId accountId)
  /\ (last_call networkId accountId steps = None ->
      forall prefix chrome0,
        w = construct prefix chrome0 ->
        forallb is_call steps = true ->
        getKey (instance (run w steps)) networkId accountId = inr None).
Proof.
  intros Ha Hcf Hsettled.
  pose proof (run_lookup steps w networkId accountId Ha Hcf Hsettled) as Hl.
  assert (Hget : getKey (instance (run w steps)) networkId accountId
                 = let value :=
                     localStorage (instance (run w steps))
                       !! storageKeyForSecretKey (instance w) networkId accountId in
                   if negb (JS.truthy value) then inr None
                   else match value with
                        | Some v =>
                            match KeyPair_fromString v with
                            | inl e => inl e
                            | inr kp => inr (Some kp)
                            end
                        | None => inr None
                        end).
  { unfold KeyStore.getKey. now rewrite run_storageKey. }
  split; [| split; [| split]].
  - intros kp Hlast Hne (kp' & Hfrom & Hto). exists kp'. split; [| exact Hto].
    rewrite Hget, Hl, Hlast. cbn [fmap option_fmap option_map].
    cbn zeta. rewrite truthy_Some by assumption. cbn. now rewrite Hfrom.
  - intros Hlast. rewrite Hget, Hl, Hlast. reflexivity.
  - intros Hlast. rewrite Hget, Hl, Hlast. reflexivity.
  - intros Hlast p c0 -> Hcalls. rewrite Hget, Hl, Hlast.
    cbn. rewrite lookup_empty. reflexivity.
Qed.

End KeyStoreRunFacts.

(** C8, as amended, on a new instance: after two calls for other pairs
    and a [setKey] and a [removeKey] for the pair, the last call for
    the pair decides. *)
Lemma getKey_answers_last_call_witness :
  let w := KeyStoreRun.construct None ∅ in
  let steps :=
    [ KeyStoreRun.call_setKey "testnet" "alice.testnet" "ed25519:one";
      KeyStoreRun.call_setKey "mainnet" "alice.near" "ed25519:two";
      KeyStoreRun.call_removeKey "testnet" "bob.testnet";
      KeyStoreRun.call_setKey "testnet" "alice.testnet" "ed25519:three" ] in
  exists kp',
    KeyStore.getKey inr
      (KeyStoreRun.instance (KeyStoreRun.run (fun s : string => s) w steps))
      "testnet" "alice.testnet"
    = inr (Some kp')
    /\ kp' = "ed25519:three".
Proof.
  intros w steps.
  refine (proj1 (getKey_answers_last_call (fun s : string => s) inr
                   w steps "testnet" "alice.testnet"
                   eq_refl eq_refl (or_intror eq_refl))
            "ed25519:three" eq_refl _ _).
  - discriminate.
  - exists "ed25519:three". split; reflexivity.
Defined.

(** C8, as stated, fails on two counts.  A key was stored for the pair
    (network [n], account [a:m]) only, and [getKey] for the pair
    (network [m:n], account [a]) does not answer [null]; and on a new
    instance the stored data that arrive between [setKey] and [getKey]
    make [getKey] answer [null] for the pair that was just stored. *)
Lemma getKey_after_setKey_fails :
  KeyStore.getKey inr
    (KeyStoreRun.instance
       (KeyStoreRun.run (fun s : string => s) (KeyStoreRun.construct None ∅)
          [ KeyStoreRun.call_setKey "n" "a:m" "ed25519:secret" ]))
    "m:n" "a"
  = inr (Some "ed25519:secret")
  /\ KeyStore.getKey inr
       (KeyStoreRun.instance
          (KeyStoreRun.run (fun s : string => s) (KeyStoreRun.construct None ∅)
             [ KeyStoreRun.call_setKey "testnet" "alice.testnet" "ed25519:secret";
               KeyStoreRun.stored_data_arrive ]))
       "testnet" "alice.testnet"
     = inr None.
Proof. split; reflexivity. Qed.

(** ** Retries of a transaction that has landed *)

Section RetryFacts.

Import NetworkClient NonceAllocator Submitter Pipeline RetryModel.

Context {Net RawResult : Type}.
Variable broadcastTransaction :
  Net -> list Byte.byte -> Net * (ErrorKind + list Byte.byte).
Variable getTransactionStatus :
  Net -> list Byte.byte -> string -> Net * option RawResult.
Variable queryAccessKey : Net -> Key -> ChainView.
Variable sign : N -> option SignedTransaction.
Variable key : Key.

Variable ledger : Net -> list Byte.byte -> option RawResult.
Hypothesis network_commits_once :
  commits_once broadcastTransaction getTransactionStatus ledger.

Local Abbreviation poll := (poll getTransactionStatus).
Local Abbreviation broadcast := (broadcast broadcastTransaction getTransactionStatus).
Local Abbreviation submit := (submit broadcastTransaction getTransactionStatus).
Local Abbreviation all_transient := (all_transient broadcastTransaction).
Local Abbreviation answers :=
  (answers_as_committed broadcastTransaction getTransactionStatus ledger).

(** A poll for a committed transaction ends at once on its outcome. *)
Lemma poll_of_committed (stx : SignedTransaction) (deadline : nat)
    (net : Net) (raw : RawResult) :
  answers stx ->
  ledger net (hash stx) = Some raw ->
  (poll (S deadline) net stx).2 = Final raw.
Proof.
  intros Hans Hl. cbn [Submitter.poll].
  pose proof (status_of_committed Hans net raw Hl) as Hs.
  destruct (getTransactionStatus net (hash stx) (senderId stx)) as [net1 st].
  cbn in Hs. subst st. reflexivity.
Qed.

(** Once the transaction has landed, the loop ends on its outcome, or
    on exhaustion when every attempt is answered by a transient
    failure. *)
Lemma broadcast_of_committed (stx : SignedTransaction) (deadline : nat)
    (raw : RawResult) (attemptsLeft : nat) :
  answers stx ->
  forall attempt net,
  ledger net (hash stx) = Some raw ->
  (broadcast attemptsLeft attempt (S deadline) net stx).2
  = if all_transient attemptsLeft net (envelope stx)
    then RetryExhausted else Final raw.
Proof.
  intros Hans.
  induction attemptsLeft as [|n IH]; intros attempt net Hl;
    cbn [Submitter.broadcast RetryModel.all_transient].
  - reflexivity.
  - pose proof (broadcast_keeps network_commits_once
                  net (envelope stx) (hash stx) raw Hl) as Hk.
    pose proof (fatal_not_landed Hans net) as Hfatal.
    destruct (broadcastTransaction net (envelope stx)) as [net1 [kind | h]];
      cbn [fst] in Hk.
    + destruct (classify kind) eqn:Ec.
      * specialize (IH (S attempt) net1 Hk).
        destruct (Submitter.broadcast _ _ n (S attempt) (S deadline) net1 stx)
          as [[net2 tr] res]. exact IH.
      * pose proof (poll_of_committed stx deadline net1 raw Hans Hk) as Hp.
        destruct (Submitter.poll _ (S deadline) net1 stx) as [[net2 tr] res].
        exact Hp.
      * specialize (Hfatal net1 kind eq_refl Ec). congruence.
    + pose proof (poll_of_committed stx deadline net1 raw Hans Hk) as Hp.
      destruct (Submitter.poll _ (S deadline) net1 stx) as [[net2 tr] res].
      exact Hp.
Qed.

(** The same when it is the first broadcast of the submission that
    lands, whatever the answer to it. *)
Lemma submit_of_landed (stx : SignedTransaction) (deadline : nat)
    (raw : RawResult) (maxAttempts : nat) (net : Net) :
  answers stx ->
  ledger (broadcastTransaction net (envelope stx)).1 (hash stx) = Some raw ->
  (submit maxAttempts (S deadline) net stx).2
  = if all_transient maxAttempts net (envelope stx)
    then RetryExhausted else Final raw.
Proof.
  intros Hans Hl. unfold Submitter.submit.
  destruct maxAttempts as [|n]; [reflexivity |].
  cbn [Submitter.broadcast RetryModel.all_transient].
  pose proof (fatal_not_landed Hans net) as Hfatal.
  destruct (broadcastTransaction net (envelope stx)) as [net1 [kind | h]];
    cbn [fst] in Hl.
  - destruct (classify kind) eqn:Ec.
    + pose proof (broadcast_of_committed stx deadline raw n Hans 1 net1 Hl) as Hb.
      destruct (Submitter.broadcast _ _ n 1 (S deadline) net1 stx)
        as [[net2 tr] res]. exact Hb.
    + pose proof (poll_of_committed stx deadline net1 raw Hans Hl) as Hp.
      destruct (Submitter.poll _ (S deadline) net1 stx) as [[net2 tr] res].
      exact Hp.
    + specialize (Hfatal net1 kind eq_refl Ec). congruence.
  - pose proof (poll_of_committed stx deadline net1 raw Hans Hl) as Hp.
    destruct (Submitter.poll _ (S deadline) net1 stx) as [[net2 tr] res].
    exact Hp.
Qed.

(** A submission that ends on a fatal rejection leaves the transaction
    not landed. *)
Lemma rejected_not_landed (stx : SignedTransaction) (deadline : nat)
    (kind : ErrorKind) (attemptsLeft : nat) :
  answers stx ->
  forall attempt net,
  (broadcast attemptsLeft attempt deadline net stx).2 = Rejected kind ->
  ledger (broadcast attemptsLeft attempt deadline net stx).1.1 (hash stx)
  = None.
Proof.
  intros Hans.
  assert (Hpoll : forall d net, (poll d net stx).2 <> Rejected kind).
  { induction d as [|d IH]; intros net; cbn [Submitter.poll]; [discriminate |].
    destruct (getTransactionStatus net (hash stx) (senderId stx))
      as [net1 [raw|]]; [discriminate |].
    specialize (IH net1).
    destruct (Submitter.poll _ d net1 stx) as [[net2 tr] res]. exact IH. }
  induction attemptsLeft as [|n IH]; intros attempt net;
    cbn [Submitter.broadcast].
  - discriminate.
  - pose proof (fatal_not_landed Hans net) as Hfatal.
    destruct (broadcastTransaction net (envelope stx)) as [net1 [k | h]].
    + destruct (classify k) eqn:Ec.
      * specialize (IH (S attempt) net1).
        destruct (Submitter.broadcast _ _ n (S attempt) deadline net1 stx)
          as [[net2 tr] res]. exact IH.
      * pose proof (Hpoll deadline net1) as Hp.
        destruct (Submitter.poll _ deadline net1 stx) as [[net2 tr] res].
        intros H. contradiction.
      * intros _. exact (Hfatal net1 k eq_refl Ec).
    + pose proof (Hpoll deadline net1) as Hp.
      destruct (Submitter.poll _ deadline net1 stx) as [[net2 tr] res].
      intros H. contradiction.
Qed.


End RetryFacts.

Section RetryScenarioFacts.

Import NetworkClient Submitter Pipeline RetryModel Scenario RetryScenario.

Lemma sign_transfer_6 : sign_transfer 6 = Some signed6.
Proof. vm_compute. reflexivity. Qed.

Lemma lossy_answers_as_committed (stx : SignedTransaction) :
  answers_as_committed lossy_broadcast lossy_status lossy_ledger stx.
Proof.
  constructor.
  - intros net net1 kind [= <- H] Hc.
    destruct net; injection H as <-; discriminate Hc.
  - intros net raw H. exact H.
Qed.


End RetryScenarioFacts.
